(** * scope_guard: the exit policies, the validity contract and the guard

    A shallow embedding of [src/scope_guard.hpp] (namespace [sg]) and the
    properties its specification states about it.

    - [Build] is the preprocessor's view: [__cplusplus] and the macros the
      header tests.
    - [Traits] are the header's type traits over what the compiler knows
      about a candidate callback type.
    - [Policy] is [ExitType] and [should_run].
    - [Effects] is the monad the member functions run in: the state the
      callback acts on, exceptions, [std::terminate] and [noexcept].
    - [Callbacks] are the types the templates are instantiated with,
      held by value or by reference.
    - [Guard] is the class template [detail::scope_guard] and
      [make_scope_guard].
    - [Scopes] runs sequences of guard operations over a store of live
      guards.
    - [Programs] are shapes of programs the properties speak of.
    - [Samples] are callables of [src/compile_time_tests.cpp] and of the
      specification's scenarios. *)

From Stdlib Require Import ZArith Bool List Lia.
From stdpp Require Import base option gmap.
Import ListNotations.

Local Open Scope Z_scope.

(* ===================================================================== *)
(** ** The build configuration *)

Module Build.

(** What the preprocessor sees when the header is included. *)
Record build_config := {
  cplusplus : Z;                          (* __cplusplus *)
  def_SG_REQUIRE_NOEXCEPT_IN_CPP17 : bool;(* #ifdef SG_REQUIRE_NOEXCEPT_IN_CPP17 *)
  predef_SG_REQUIRE_NOEXCEPT : bool       (* SG_REQUIRE_NOEXCEPT defined by the includer *)
}.

(** Lines 15-22: is [SG_REQUIRE_NOEXCEPT] defined once the header's own
    [#define] has been seen?  This is the strict mode. *)
Definition SG_REQUIRE_NOEXCEPT (cfg : build_config) : bool :=
  predef_SG_REQUIRE_NOEXCEPT cfg
  || ((201703 <=? cplusplus cfg) && def_SG_REQUIRE_NOEXCEPT_IN_CPP17 cfg).

(** Lines 28 and 98: [#if __cplusplus >= 201411L], the gate on the
    enumerators [ON_SUCCESS] and [ON_FAILURE] and on their [should_run]. *)
Definition has_exit_policies (cfg : build_config) : bool :=
  201411 <=? cplusplus cfg.

(** Line 91: [#if __cplusplus >= 202002L]. *)
Definition has_cpp20 (cfg : build_config) : bool :=
  202002 <=? cplusplus cfg.

(** Line 60 names [std::is_nothrow_invocable], a library trait declared
    from C++17 on. *)
Definition has_is_nothrow_invocable (cfg : build_config) : bool :=
  201703 <=? cplusplus cfg.

(** A build in which strict mode, if it is on, finds that trait. *)
Definition strict_mode_available (cfg : build_config) : Prop :=
  SG_REQUIRE_NOEXCEPT cfg = true -> 201703 <= cplusplus cfg.

(** Does [return scope_guard{...};] initialise the caller's object in
    place? From C++17 it must; before, the implementation may ([elides])
    or may move from a temporary. *)
Definition return_elided (cfg : build_config) (elides : bool) : bool :=
  (201703 <=? cplusplus cfg) || elides.

Definition cpp11 : build_config :=
  {| cplusplus := 201103; def_SG_REQUIRE_NOEXCEPT_IN_CPP17 := false;
     predef_SG_REQUIRE_NOEXCEPT := false |}.
Definition cpp17 : build_config :=
  {| cplusplus := 201703; def_SG_REQUIRE_NOEXCEPT_IN_CPP17 := false;
     predef_SG_REQUIRE_NOEXCEPT := false |}.
Definition cpp17_strict : build_config :=
  {| cplusplus := 201703; def_SG_REQUIRE_NOEXCEPT_IN_CPP17 := true;
     predef_SG_REQUIRE_NOEXCEPT := false |}.
Definition cpp20 : build_config :=
  {| cplusplus := 202002; def_SG_REQUIRE_NOEXCEPT_IN_CPP17 := false;
     predef_SG_REQUIRE_NOEXCEPT := false |}.
(** C++14 with [-DSG_REQUIRE_NOEXCEPT]. *)
Definition cpp14_predefined : build_config :=
  {| cplusplus := 201402; def_SG_REQUIRE_NOEXCEPT_IN_CPP17 := false;
     predef_SG_REQUIRE_NOEXCEPT := true |}.

End Build.
Export Build.

(* ===================================================================== *)
(** ** The type traits of the validity contract *)

Module Traits.

(** The type of a call expression, as far as [std::is_same<void, _>]
    tells types apart. *)
Inductive cpp_type := ty_void | ty_non_void.

(** What the compiler knows about a candidate type [T]. The [std_]
    fields are the values of standard traits; the last field is about the
    one expression of the class body the traits do not look at. *)
Record type_facts := {
  (* decltype(std::declval<T&&>()()); None when the expression is ill-formed *)
  call_type : option cpp_type;
  (* std::is_nothrow_invocable<T>::value *)
  std_is_nothrow_invocable : bool;
  (* std::is_nothrow_destructible<T>::value *)
  std_is_nothrow_destructible : bool;
  (* std::is_nothrow_constructible<T, T&&>::value *)
  std_is_nothrow_constructible : bool;
  (* std::is_constructible<T, T&&>::value: are the member initialisers
     m_callback(std::forward<T>(...)) of lines 175 and 195 well-formed? *)
  std_is_constructible : bool;
  (* is the call m_callback() of line 188, on an lvalue of type T,
     well-formed? *)
  member_call_valid : bool
}.

(** A trait class with a [value] member; [None] when instantiating the
    class is an error. *)
Definition trait := option bool.

(** Lines 38-46. [is_noarg_callable_t<T>] names
    [is_noarg_callable_t<T, void>]; the partial specialisation
    [is_noarg_callable_t<T, decltype(...)>] is that type only when the
    call expression is valid and its type is [void]. *)
Definition is_noarg_callable_t (T : type_facts) : trait :=
  match call_type T with
  | Some ty_void => Some true
  | _ => Some false
  end.

(** Lines 49-52: [std::is_same<void, decltype(...)>]; the [decltype] sits
    in the base clause, so an invalid call expression is an error. *)
Definition returns_void_t (T : type_facts) : trait :=
  match call_type T with
  | Some ty_void => Some true
  | Some ty_non_void => Some false
  | None => None
  end.

(** Lines 56-67. With [SG_REQUIRE_NOEXCEPT] the base class is
    [std::is_nothrow_invocable<T>], which a build below C++17 does not
    declare. *)
Definition is_nothrow_invocable_if_required_t
    (cfg : build_config) (T : type_facts) : trait :=
  if SG_REQUIRE_NOEXCEPT cfg then
    if has_is_nothrow_invocable cfg then Some (std_is_nothrow_invocable T)
    else None
  else Some true.

(** Lines 74-76: [std::conditional<A::value, B, A>::type]. [B] is only
    named, so it is instantiated only when it is selected. *)
Definition and_t2 (A B : trait) : trait :=
  match A with
  | Some true => B
  | _ => A
  end.

(** Lines 70-72: [and_t<A, B, C...>] is [and_t<A, and_t<B, C...>>]. *)
Fixpoint and_t (A B : trait) (C : list trait) : trait :=
  match C with
  | [] => and_t2 A B
  | C1 :: Cs => and_t2 A (and_t B C1 Cs)
  end.

(** Lines 79-85. *)
Definition is_proper_sg_callback_t
    (cfg : build_config) (T : type_facts) : trait :=
  and_t (is_noarg_callable_t T)
        (returns_void_t T)
        [ is_nothrow_invocable_if_required_t cfg T;
          Some (std_is_nothrow_destructible T) ].

(** Lines 109-112: [scope_guard<Callback, exit_type>] exists when
    [std::enable_if<is_proper_sg_callback_t<Callback>::value>::type]
    does. *)
Definition instantiable (cfg : build_config) (T : type_facts) : Prop :=
  is_proper_sg_callback_t cfg T = Some true.

(** A guard over [T] can be made: the class exists, its constructors can
    initialise [m_callback] (lines 175 and 195) and its destructor can
    call it (line 188). *)
Definition bindable (cfg : build_config) (T : type_facts) : Prop :=
  instantiable cfg T
  /\ std_is_constructible T = true
  /\ member_call_valid T = true.

(** The four checks of the contract, each read off the type alone. *)
Definition callable_with_no_arguments (T : type_facts) : Prop :=
  is_Some (call_type T).
Definition call_returns_void (T : type_facts) : Prop :=
  call_type T = Some ty_void.
Definition nothrow_call_if_required
    (cfg : build_config) (T : type_facts) : Prop :=
  SG_REQUIRE_NOEXCEPT cfg = true -> std_is_nothrow_invocable T = true.
Definition nothrow_destructible (T : type_facts) : Prop :=
  std_is_nothrow_destructible T = true.

End Traits.
Export Traits.

(* ===================================================================== *)
(** ** Exit policies *)

Module Policy.

(** Lines 26-32. [ON_SUCCESS] and [ON_FAILURE] are enumerators only
    under [#if __cplusplus >= 201411L]. *)
Inductive ExitType (cfg : build_config) : Type :=
| ALWAYS
| ON_SUCCESS (gate : has_exit_policies cfg = true)
| ON_FAILURE (gate : has_exit_policies cfg = true).
Arguments ALWAYS {cfg}.
Arguments ON_SUCCESS {cfg} gate.
Arguments ON_FAILURE {cfg} gate.

(** The one thing the runtime tells the header: how many exceptions of
    the current thread have been thrown and not yet caught. *)
Record runtime := { uncaught : nat }.

(** [std::uncaught_exceptions()], an [int]. *)
Definition uncaught_exceptions (rt : runtime) : Z := Z.of_nat (uncaught rt).

(** [std::uncaught_exception()]: is the count positive? *)
Definition uncaught_exception (rt : runtime) : bool :=
  (0 <? uncaught rt)%nat.

(** An error is propagating. *)
Definition error_propagating (rt : runtime) : Prop := uncaught rt <> 0%nat.

(** Lines 87-105: [should_run<exit_type>::should_run()]. *)
Definition should_run {cfg : build_config}
    (exit_type : ExitType cfg) (rt : runtime) : bool :=
  match exit_type with
  | ALWAYS => true
  | ON_SUCCESS _ =>
      if has_cpp20 cfg then uncaught_exceptions rt =? 0
      else negb (uncaught_exception rt)
  | ON_FAILURE _ =>
      if has_cpp20 cfg then negb (uncaught_exceptions rt =? 0)
      else uncaught_exception rt
  end.

(** Line 109: the default template argument
    [ExitType exit_type = ExitType::ALWAYS]. *)
Definition default_exit_type {cfg : build_config} : ExitType cfg := ALWAYS.

End Policy.
Export Policy.

(* ===================================================================== *)
(** ** Effects: state, exceptions, [std::terminate] and [noexcept] *)

Module Effects.

(** How a call ends. *)
Inductive completion (A : Type) : Type :=
| Returns (a : A)       (* it returned [a] *)
| Throws                (* an exception left it *)
| Terminated.           (* [std::terminate] was called *)
Arguments Returns {A} a.
Arguments Throws {A}.
Arguments Terminated {A}.

(** A computation over a state [S]. *)
Definition M (S A : Type) : Type := S -> completion A * S.

Definition ret {S A} (a : A) : M S A := fun s => (Returns a, s).

Definition bind {S A B} (m : M S A) (k : A -> M S B) : M S B :=
  fun s =>
    match m s with
    | (Returns a, s') => k a s'
    | (Throws, s') => (Throws, s')
    | (Terminated, s') => (Terminated, s')
    end.

(** A function declared [noexcept]: an exception that would leave it
    calls [std::terminate] instead. *)
Definition noexcept {S A} (m : M S A) : M S A :=
  fun s =>
    match m s with
    | (Throws, s') => (Terminated, s')
    | r => r
    end.

(** [m] with [cleanup] run on the way out when [m] throws: the
    destructor of a local object during stack unwinding. The exception
    then goes on; an exception out of [cleanup] calls [std::terminate]. *)
Definition unwinding_through {S A} (m : M S A) (cleanup : M S unit)
    : M S A :=
  fun s =>
    match m s with
    | (Throws, s') =>
        match cleanup s' with
        | (Returns _, s'') => (Throws, s'')
        | (_, s'') => (Terminated, s'')
        end
    | r => r
    end.

(** A function declared [noexcept(b)]. *)
Definition noexcept_if {S A} (b : bool) (m : M S A) : M S A :=
  if b then noexcept m else m.

Definition returned {A} (c : completion A) : Prop :=
  match c with Returns _ => True | _ => False end.

End Effects.
Export Effects.

Declare Scope guard_scope.
Delimit Scope guard_scope with guard.
Notation "x <- m ;; k" := (bind m (fun x => k))
  (at level 100, m at next level, right associativity) : guard_scope.

(* ===================================================================== *)
(** ** Callback types *)

Module Callbacks.

(** A type [Callback] the templates can be instantiated with: what the
    compiler knows of it and what its call operator and the constructor
    selected for [Callback(std::forward<Callback>(c))] do. Whatever a
    callable reads or writes, its own members included, is part of
    [World]; a value of [Callback] names the callable. *)
Record callback_type (World : Type) := {
  Callback : Type;
  facts : type_facts;
  call_body : Callback -> M World unit;
  ctor_body : Callback -> M World Callback
}.
Arguments Callback {World} _.
Arguments facts {World} _.
Arguments call_body {World} _ _.
Arguments ctor_body {World} _ _.

(** A callback type that passes the [enable_if] of line 110. *)
Record proper_callback_type (cfg : build_config) (World : Type) := {
  the_type :> callback_type World;
  is_proper : instantiable cfg (facts the_type)
}.
Arguments the_type {cfg World} _.
Arguments is_proper {cfg World} _.

(** Packs a callback type with the outcome of the check. *)
Definition proper (cfg : build_config) {World} (T : callback_type World)
    (ok : is_proper_sg_callback_t cfg (facts T) = Some true)
    : proper_callback_type cfg World :=
  {| the_type := T; is_proper := ok |}.

(** The category of the expression a call operator is applied to. *)
Inductive value_category := lvalue | rvalue.

(** A class with call operators, before it is known how it is passed. *)
Record functor_class (World : Type) := {
  object : Type;
  (* [f()] for [f] of the class type, const (true) or not, of the given
     category: the type of the call and whether it is noexcept; None when
     no call operator is viable *)
  call_signature : bool -> value_category -> option (cpp_type * bool);
  destructor_noexcept : bool;
  (* what the call on a const (true) or non-const lvalue does *)
  operator_call : bool -> object -> M World unit
}.
Arguments object {World} _.
Arguments call_signature {World} _ _ _.
Arguments destructor_noexcept {World} _.
Arguments operator_call {World} _ _ _.

(** [make_scope_guard(f)] with [f] an lvalue deduces [Callback = F&], or
    [const F&] for a const one: [std::declval<Callback&&>()] is an lvalue,
    binding the member runs no constructor of [F], and a reference is
    trivially destructible. *)
Definition facts_by_reference {World} (F : functor_class World)
    (is_const : bool) : type_facts :=
  {| call_type := fst <$> call_signature F is_const lvalue;
     std_is_nothrow_invocable :=
       default false (snd <$> call_signature F is_const lvalue);
     std_is_nothrow_destructible := true;
     std_is_nothrow_constructible := true;
     std_is_constructible := true;
     member_call_valid :=
       bool_decide (is_Some (call_signature F is_const lvalue)) |}.

(** [make_scope_guard(F{...})] or [make_scope_guard(std::move(f))]
    deduces [Callback = F]: [std::declval<Callback&&>()] is an rvalue,
    while the member the destructor calls is an lvalue. [ctor_noexcept]
    is [None] when no constructor takes an rvalue of [F] (deleted or
    inaccessible), and else whether the one selected is [noexcept]. *)
Definition facts_by_value {World} (F : functor_class World)
    (ctor_noexcept : option bool) : type_facts :=
  {| call_type := fst <$> call_signature F false rvalue;
     std_is_nothrow_invocable :=
       default false (snd <$> call_signature F false rvalue);
     std_is_nothrow_destructible := destructor_noexcept F;
     std_is_nothrow_constructible := default false ctor_noexcept;
     std_is_constructible := bool_decide (is_Some ctor_noexcept);
     member_call_valid :=
       bool_decide (is_Some (call_signature F false lvalue)) |}.

(** [Callback = F&]. *)
Definition by_reference {World} (F : functor_class World)
    : callback_type World :=
  {| Callback := object F;
     facts := facts_by_reference F false;
     call_body := operator_call F false;
     ctor_body := fun c => ret c |}.

(** [Callback = const F&]. *)
Definition by_const_reference {World} (F : functor_class World)
    : callback_type World :=
  {| Callback := object F;
     facts := facts_by_reference F true;
     call_body := operator_call F true;
     ctor_body := fun c => ret c |}.

(** [Callback = F], built by the constructor overload resolution selects
    for an rvalue, [ctor], which is declared [noexcept(ctor_noexcept)]. *)
Definition by_value {World} (F : functor_class World)
    (ctor_noexcept : bool) (ctor : object F -> M World (object F))
    : callback_type World :=
  {| Callback := object F;
     facts := facts_by_value F (Some ctor_noexcept);
     call_body := operator_call F false;
     ctor_body := ctor |}.

End Callbacks.
Export Callbacks.

(* ===================================================================== *)
(** ** The guard *)

Module Guard.

Local Open Scope guard_scope.

(** The state the member functions run in: the world and, as a ghost
    record, the callbacks invoked so far, oldest first. *)
Record state {cfg World} (T : proper_callback_type cfg World) := {
  world : World;
  invoked : list (Callback T)
}.
Arguments world {cfg World T} _.
Arguments invoked {cfg World T} _.

(** Lines 127-160: the members of [scope_guard<Callback, exit_type>]. *)
Record scope_guard {cfg World}
    (T : proper_callback_type cfg World) (exit_type : ExitType cfg) := {
  m_callback : Callback T;
  m_active : bool
}.
Arguments m_callback {cfg World T exit_type} _.
Arguments m_active {cfg World T exit_type} _.

(** The guard a constructor leaves: over [c] and active. *)
Definition bound {cfg World} (T : proper_callback_type cfg World)
    (exit_type : ExitType cfg) (c : Callback T) : scope_guard T exit_type :=
  {| m_callback := c; m_active := true |}.

Section Members.
Context {cfg : build_config} {World : Type}.
Context {T : proper_callback_type cfg World}.

(** A computation of the callback's, run on the world of the state. *)
Definition lift {A} (m : M World A) : M (state T) A :=
  fun s =>
    let (r, w) := m (world s) in
    (r, {| world := w; invoked := invoked s |}).

(** The call expression [c()], entered in the record. *)
Definition invoke (c : Callback T) : M (state T) unit :=
  fun s =>
    lift (call_body T c) {| world := world s; invoked := invoked s ++ [c] |}.

(** [Callback(std::forward<Callback>(c))]. *)
Definition forward_construct (c : Callback T) : M (state T) (Callback T) :=
  lift (ctor_body T c).

Context {exit_type : ExitType cfg}.

(** Lines 172-180: the private constructor. *)
Definition scope_guard_ctor (callback : Callback T)
    : M (state T) (scope_guard T exit_type) :=
  noexcept_if (std_is_nothrow_constructible (facts T))
    (c <- forward_construct callback ;;
     ret {| m_callback := c; m_active := true |}).

(** Lines 183-189: the destructor, run at the guard's end of life with
    the runtime as it is then. *)
Definition scope_guard_dtor (this : scope_guard T exit_type) (rt : runtime)
    : M (state T) unit :=
  noexcept
    (if m_active this && should_run exit_type rt
     then invoke (m_callback this)
     else ret tt).

(** Lines 192-199: the move constructor. It gives the new guard and
    [other] as the body leaves it. When the member initialiser throws,
    the body does not run and [other] is as it was. *)
Definition scope_guard_move (other : scope_guard T exit_type)
    : M (state T) (scope_guard T exit_type * scope_guard T exit_type) :=
  noexcept_if (std_is_nothrow_constructible (facts T))
    (c <- forward_construct (m_callback other) ;;
     ret ({| m_callback := c; m_active := m_active other |},
          {| m_callback := m_callback other; m_active := false |})).

(** Lines 202-206. *)
Definition dismiss (this : scope_guard T exit_type)
    : M (state T) (scope_guard T exit_type) :=
  noexcept
    (ret {| m_callback := m_callback this; m_active := false |}).

(** Lines 209-215 when [return scope_guard{...};] initialises the
    caller's object in place: from C++17 always, before C++17 when the
    implementation elides the move. *)
Definition make_scope_guard (callback : Callback T)
    : M (state T) (scope_guard T exit_type) :=
  noexcept_if (std_is_nothrow_constructible (facts T))
    (scope_guard_ctor callback).

(** Lines 209-215 when it does not, as a build below C++17 may: the
    braced temporary is constructed, the caller's object is
    move-constructed from it, and the temporary is destroyed, in the
    runtime [rt] of the call when the move returned and with one more
    exception in flight when it threw. *)
Definition make_scope_guard_by_move (rt : runtime) (callback : Callback T)
    : M (state T) (scope_guard T exit_type) :=
  noexcept_if (std_is_nothrow_constructible (facts T))
    (temporary <- scope_guard_ctor callback ;;
     moved <- unwinding_through
                (scope_guard_move temporary)
                (scope_guard_dtor temporary {| uncaught := S (uncaught rt) |}) ;;
     _ <- scope_guard_dtor (snd moved) rt ;;
     ret (fst moved)).

(** Lines 209-215 in a build: [elides] is what the implementation does
    where the standard leaves it the choice. *)
Definition make_scope_guard_in (elides : bool) (rt : runtime)
    (callback : Callback T) : M (state T) (scope_guard T exit_type) :=
  if return_elided cfg elides then make_scope_guard callback
  else make_scope_guard_by_move rt callback.

(** The template argument [exit_type] of a guard's type. *)
Definition policy (g : scope_guard T exit_type) : ExitType cfg := exit_type.

End Members.

Arguments scope_guard_ctor {cfg World} T exit_type callback.
Arguments make_scope_guard {cfg World} T exit_type callback.

Arguments make_scope_guard_by_move {cfg World} T exit_type rt callback.
Arguments make_scope_guard_in {cfg World} T exit_type elides rt callback.

End Guard.
Export Guard.

(* ===================================================================== *)
(** ** Scopes: sequences of guard operations *)

Module Scopes.

Section Scopes.
Context {cfg : build_config} {World : Type}.
Context {T : proper_callback_type cfg World} {exit_type : ExitType cfg}.

(** The guards alive at some point of a program, each under the variable
    that holds it, the state, and whether [std::terminate] was called. *)
Record machine := {
  guards : gmap nat (scope_guard T exit_type);
  now : state T;
  halted : bool
}.

(** What client code can do with guards it holds. Nothing else compiles:
    the default constructor, the copy constructor and both assignments
    are deleted (lines 141-144) and the constructor from a callback is
    private (lines 146-149). *)
Inductive op :=
| Relocate (src dst : nat)            (* scope_guard dst{std::move(src)}; *)
| Dismiss (a : nat)                   (* a.dismiss(); *)
| EndOfLife (a : nat) (rt : runtime). (* a's scope ends *)

(** The machine after a member function completed with [r]; [update]
    gives the guards when it returned. *)
Definition settle {A} (m : machine) (r : completion A * state T)
    (update : A -> gmap nat (scope_guard T exit_type)) : machine :=
  match r with
  | (Returns a, s) => {| guards := update a; now := s; halted := false |}
  | (Throws, s) => {| guards := guards m; now := s; halted := false |}
  | (Terminated, s) => {| guards := guards m; now := s; halted := true |}
  end.

(** One operation. An operation that names a variable holding no guard,
    or declares a variable twice, is not a program and changes nothing;
    neither does anything after [std::terminate]. *)
Definition exec (o : op) (m : machine) : machine :=
  if halted m then m else
  match o with
  | Relocate src dst =>
      match guards m !! src, guards m !! dst with
      | Some other, None =>
          settle m (scope_guard_move other (now m))
            (fun '(this, other') => <[dst := this]> (<[src := other']> (guards m)))
      | _, _ => m
      end
  | Dismiss a =>
      match guards m !! a with
      | Some this =>
          settle m (dismiss this (now m)) (fun this' => <[a := this']> (guards m))
      | None => m
      end
  | EndOfLife a rt =>
      match guards m !! a with
      | Some this =>
          settle m (scope_guard_dtor this rt (now m)) (fun _ => delete a (guards m))
      | None => m
      end
  end.

Definition run (ops : list op) (m : machine) : machine :=
  fold_left (fun m o => exec o m) ops m.

(** The program point right after
    [auto g0 = make_scope_guard<Callback, exit_type>(callback);]
    in a world [w] where nothing was invoked yet. *)
Definition start (callback : Callback T) (w : World) : machine :=
  settle {| guards := ∅; now := {| world := w; invoked := [] |}; halted := false |}
         (make_scope_guard T exit_type callback {| world := w; invoked := [] |})
         (fun g => {[ 0%nat := g ]}).

(** The same program point in a build where the factory may return by
    a move; [rt] is the runtime in which the factory is called. Where the
    declaration moves from the returned object as well, that move is a
    [Relocate] from it and the end of the returned object an
    [EndOfLife]. *)
Definition start_in (elides : bool) (rt : runtime)
    (callback : Callback T) (w : World) : machine :=
  settle {| guards := ∅; now := {| world := w; invoked := [] |}; halted := false |}
         (make_scope_guard_in T exit_type elides rt callback
            {| world := w; invoked := [] |})
         (fun g => {[ 0%nat := g ]}).

(** How often a callback was invoked so far. *)
Definition invocations (m : machine) : nat := length (invoked (now m)).

(** Is the guard under [a] alive and active? *)
Definition active_at (m : machine) (a : nat) : Prop :=
  exists g, guards m !! a = Some g /\ m_active g = true.

(** The right to invoke is in one place at most: the callback was invoked
    once at most, and while the program runs an active guard means that
    it was not invoked yet and that no other guard is active. *)
Definition sole_owner (m : machine) : Prop :=
  (invocations m <= 1)%nat /\
  (halted m = false ->
   forall a, active_at m a ->
     invocations m = 0%nat /\ forall b, active_at m b -> a = b).

End Scopes.

Arguments machine {cfg World} T exit_type.
Arguments op : clear implicits.

End Scopes.
Export Scopes.

(* ===================================================================== *)
(** ** Observing a destructor *)

Module Observe.

Section Observe.
Context {cfg : build_config} {World : Type}.
Context {T : proper_callback_type cfg World} {exit_type : ExitType cfg}.

(** What one call of [c] makes of a state: the world as the call
    operator leaves it, and one more entry in the record. *)
Definition after_call (c : Callback T) (s : state T) : state T :=
  {| world := snd (call_body T c (world s)); invoked := invoked s ++ [c] |}.

(** How a [noexcept] function ends when the call it makes ends with
    [r]. *)
Definition barred {A} (r : completion A) : completion A :=
  match r with
  | Throws => Terminated
  | _ => r
  end.

(** The destructor of [this] invokes the bound action: it runs the call
    operator of [this]'s callback on the world, once, and ends as that
    call ends, but with [std::terminate] if the call throws. *)
Definition dtor_invokes (this : scope_guard T exit_type)
    (rt : runtime) (s : state T) : Prop :=
  scope_guard_dtor this rt s
  = (barred (fst (call_body T (m_callback this) (world s))),
     after_call (m_callback this) s).

(** The destructor of [this] returns and leaves the state as it was. *)
Definition dtor_is_silent (this : scope_guard T exit_type)
    (rt : runtime) (s : state T) : Prop :=
  scope_guard_dtor this rt s = (Returns tt, s).

(** [n] calls of [dismiss] in a row; the state is threaded through. *)
Fixpoint dismiss_times (n : nat) (this : scope_guard T exit_type)
    : M (state T) (scope_guard T exit_type) :=
  match n with
  | O => ret this
  | S n' => bind (dismiss this) (dismiss_times n')
  end.

End Observe.

End Observe.
Export Observe.

(* ===================================================================== *)
(** ** Shapes of programs *)

Module Programs.

(** Does the operation leave the action due? A relocation does; a
    dismissal does not; an end of life does when the policy says so in
    the runtime it happens in. *)
Definition keeps_due {cfg} (exit_type : ExitType cfg) (o : op) : bool :=
  match o with
  | Relocate _ _ => true
  | Dismiss _ => false
  | EndOfLife _ rt => should_run exit_type rt
  end.

(** No guard of the program is active. *)
Definition none_active {cfg World} {T : proper_callback_type cfg World}
    {exit_type : ExitType cfg} (m : machine T exit_type) : Prop :=
  forall a, ~ active_at m a.

(** The same build with [SG_REQUIRE_NOEXCEPT_IN_CPP17] set to [b]. *)
Definition with_noexcept_in_cpp17 (b : bool) (cfg : build_config)
    : build_config :=
  {| cplusplus := cplusplus cfg;
     def_SG_REQUIRE_NOEXCEPT_IN_CPP17 := b;
     predef_SG_REQUIRE_NOEXCEPT := predef_SG_REQUIRE_NOEXCEPT cfg |}.

End Programs.
Export Programs.

(* ===================================================================== *)
(** ** Sample callables *)

Module Samples.

(** [non_throwing] and [meh] (lines 17 and 19 of [compile_time_tests.cpp])
    and [throwing] (line 18). *)
Definition non_throwing {W} : M W unit := ret tt.
Definition throwing {W} : M W unit := fun w => (Throws, w).

(** A class whose one call operator is const-qualified and not
    ref-qualified: every expression of the class type can be called. *)
Definition const_call {W} (result : cpp_type) (is_noexcept : bool)
    (is_destructor_noexcept : bool) (body : M W unit) : functor_class W :=
  {| object := unit;
     call_signature := fun _ _ => Some (result, is_noexcept);
     destructor_noexcept := is_destructor_noexcept;
     operator_call := fun _ _ => body |}.

(** A closure type [[...]{ body }] or [[...]() noexcept { body }]:
    a const call operator returning [void], with implicit [noexcept]
    destructor. *)
Definition lambda {W} (body : M W unit) (is_noexcept : bool)
    : functor_class W :=
  const_call ty_void is_noexcept true body.

(** Line 34: [meh_lambda], [[]{ meh(); }], not declared [noexcept]. *)
Definition meh_lambda : functor_class unit := lambda non_throwing false.

(** Lines 46-49: [throwing_struct], whose call operator is not const. *)
Definition throwing_struct : functor_class unit :=
  {| object := unit;
     call_signature :=
       fun is_const _ => if is_const then None else Some (ty_void, false);
     destructor_noexcept := true;
     operator_call := fun _ _ => throwing |}.

(** A class with [void operator()() && noexcept] and no other call
    operator. *)
Definition rvalue_only : functor_class unit :=
  {| object := unit;
     call_signature :=
       fun is_const category =>
         match is_const, category with
         | false, rvalue => Some (ty_void, true)
         | _, _ => None
         end;
     destructor_noexcept := true;
     operator_call := fun _ _ => non_throwing |}.

(** Lines 59-62: [returning_struct], [int operator()() const noexcept]. *)
Definition returning_struct : functor_class unit :=
  const_call ty_non_void true true (ret tt).

(** A type with no call operator taking no arguments, such as [int]. *)
Definition not_callable : functor_class unit :=
  {| object := unit;
     call_signature := fun _ _ => None;
     destructor_noexcept := true;
     operator_call := fun _ _ => ret tt |}.

(** Lines 64-75: [nocopy_nomove]; both constructors are deleted, so it
    can be passed only by reference. *)
Definition nocopy_nomove : functor_class unit := lambda non_throwing true.

(** Lines 77-87: [potentially_throwing_dtor]. *)
Definition potentially_throwing_dtor : functor_class unit :=
  const_call ty_void true false non_throwing.

(** Lines 100-109: [throwing_move]; the move constructor is declared
    [noexcept(false)]. *)
Definition throwing_move : functor_class unit := lambda non_throwing true.

(** Lines 128-136: [nothrow]. *)
Definition nothrow : functor_class unit := lambda non_throwing true.

(** [nothrow{}] passed as an rvalue, in a strict C++17 build. *)
Definition nothrow_rvalue : proper_callback_type cpp17_strict unit :=
  proper cpp17_strict
    (by_value nothrow true ret) eq_refl.

(** [nocopy_nomove ncnm; make_scope_guard(ncnm);] (test 27). *)
Definition nocopy_nomove_lvalue : proper_callback_type cpp17_strict unit :=
  proper cpp17_strict
    (by_reference nocopy_nomove) eq_refl.

(** A class like [throwing_move] whose move constructor does throw once
    a budget is spent, passed as an rvalue. The world is whether the budget
    is spent; the first move spends it. *)
Definition move_throws : proper_callback_type cpp17_strict bool :=
  proper cpp17_strict
    (by_value (lambda (W := bool) non_throwing true) false
       (fun c spent => if spent then (Throws, spent) else (Returns c, true)))
    eq_refl.

(** [[]{ throwing(); }] (line 32) passed as an rvalue. *)
Definition throwing_lambda : proper_callback_type cpp20 unit :=
  proper cpp20
    (by_value (lambda throwing false) true ret) eq_refl.

(** [[&]{ flag = true; }] over a world that is the flag. *)
Definition set_flag : proper_callback_type cpp20 bool :=
  proper cpp20
    (by_value (lambda (fun _ => (Returns tt, true)) false) true ret) eq_refl.

(** [[&]() noexcept { counter += 1; }] over a world that is the counter. *)
Definition bump : proper_callback_type cpp20 Z :=
  proper cpp20
    (by_value (lambda (fun n => (Returns tt, n + 1)) true) true ret) eq_refl.

(** No exception in flight, and one in flight. *)
Definition calm : runtime := {| uncaught := 0 |}.
Definition unwinding : runtime := {| uncaught := 1 |}.

(** A state in which nothing was invoked yet. *)
Definition fresh {cfg W} (T : proper_callback_type cfg W) (w : W) : state T :=
  {| world := w; invoked := [] |}.

(** A guard over [set_flag], and one over [throwing_lambda]. *)
Definition flag_guard (active : bool) : scope_guard set_flag ALWAYS :=
  Build_scope_guard _ _ set_flag ALWAYS tt active.
Definition doomed_guard : scope_guard throwing_lambda ALWAYS :=
  Build_scope_guard _ _ throwing_lambda ALWAYS tt true.

(** [auto g0 = make_scope_guard([&]{ flag = true; }); auto g1 = std::move(g0);]
    with the flag unset. *)
Definition flag_bound : machine set_flag ALWAYS :=
  start (T := set_flag) (exit_type := ALWAYS) tt false.
Definition flag_relocated : machine set_flag ALWAYS :=
  exec (Relocate 0 1) flag_bound.

(** [auto g0 = make_scope_guard([&]() noexcept { counter += 1; });] with
    the counter at 5. *)
Definition bump_bound : machine bump ALWAYS :=
  start (T := bump) (exit_type := ALWAYS) tt 5.

(** The same program once [g0.dismiss();] has run. *)
Definition bump_dismissed : machine bump ALWAYS :=
  {| guards := {[ 0%nat := Build_scope_guard _ _ bump ALWAYS tt false ]};
     now := fresh bump 5;
     halted := false |}.

(** A class whose move constructor throws once a budget of one move is
    spent and whose call sets a flag, in a C++11 build. The world is
    whether the budget is spent, and the flag. *)
Definition one_move_then_throws : proper_callback_type cpp11 (bool * bool) :=
  proper cpp11
    (by_value (lambda (W := bool * bool)
                 (fun w => (Returns tt, (fst w, true))) true) false
       (fun c w => if fst w then (Throws, w) else (Returns c, (true, snd w))))
    eq_refl.

(** [auto g0 = make_scope_guard(F{});] for the class of [move_throws],
    with the budget unspent. *)
Definition budget_bound : machine move_throws ALWAYS :=
  start (T := move_throws) (exit_type := ALWAYS) tt false.

End Samples.

(* ===================================================================== *)
(** * Properties *)

Local Open Scope guard_scope.

(** ** The monad *)

Lemma noexcept_never_throws {S A} (m : M S A) (s : S) :
  fst (noexcept m s) <> Throws.
Proof.
  unfold noexcept. destruct (m s) as [[a| |] s']; simpl; discriminate.
Qed.

Lemma noexcept_returns {S A} (m : M S A) (s s' : S) (a : A) :
  noexcept m s = (Returns a, s') <-> m s = (Returns a, s').
Proof.
  unfold noexcept. destruct (m s) as [[b| |] s0]; simpl; split; congruence.
Qed.

Lemma noexcept_state {S A} (m : M S A) (s : S) :
  snd (noexcept m s) = snd (m s).
Proof.
  unfold noexcept. destruct (m s) as [[b| |] s0]; reflexivity.
Qed.

Lemma noexcept_if_state {S A} (b : bool) (m : M S A) (s : S) :
  snd (noexcept_if b m s) = snd (m s).
Proof.
  destruct b; simpl; [apply noexcept_state | reflexivity].
Qed.

Lemma noexcept_if_returns {S A} (b : bool) (m : M S A) (s s' : S) (a : A) :
  noexcept_if b m s = (Returns a, s') <-> m s = (Returns a, s').
Proof.
  destruct b; simpl; [apply noexcept_returns | tauto].
Qed.

Lemma noexcept_if_true_never_throws {S A} (b : bool) (m : M S A) (s : S) :
  b = true -> fst (noexcept_if b m s) <> Throws.
Proof.
  intros ->. apply noexcept_never_throws.
Qed.

(** ** The member functions, one at a time *)

Section MemberFacts.
Context {cfg : build_config} {World : Type}.
Context {T : proper_callback_type cfg World} {exit_type : ExitType cfg}.
Implicit Types (g this other : scope_guard T exit_type) (s : state T).

Lemma lift_invoked {A} (m : M World A) s :
  invoked (snd (lift m s)) = invoked s.
Proof.
  unfold lift. destruct (m (world s)); reflexivity.
Qed.

Lemma forward_construct_invoked (c : Callback T) s :
  invoked (snd (forward_construct c s)) = invoked s.
Proof. apply lift_invoked. Qed.

Lemma invoke_invoked (c : Callback T) s :
  invoked (snd (invoke c s)) = invoked s ++ [c].
Proof.
  unfold invoke. rewrite lift_invoked. reflexivity.
Qed.

(** The destructor, case by case. *)
Lemma dtor_fires this rt s :
  m_active this = true -> should_run exit_type rt = true ->
  scope_guard_dtor this rt s = noexcept (invoke (m_callback this)) s.
Proof.
  intros Ha Hr. unfold scope_guard_dtor. rewrite Ha, Hr. reflexivity.
Qed.

Lemma dtor_skips this rt s :
  m_active this && should_run exit_type rt = false ->
  scope_guard_dtor this rt s = (Returns tt, s).
Proof.
  intros H. unfold scope_guard_dtor. rewrite H. reflexivity.
Qed.

Lemma dtor_invoked this rt s :
  invoked (snd (scope_guard_dtor this rt s)) =
  if m_active this && should_run exit_type rt
  then invoked s ++ [m_callback this] else invoked s.
Proof.
  unfold scope_guard_dtor. rewrite noexcept_state.
  destruct (m_active this && should_run exit_type rt).
  - apply invoke_invoked.
  - reflexivity.
Qed.

Lemma dtor_never_throws this rt s :
  fst (scope_guard_dtor this rt s) <> Throws.
Proof. apply noexcept_never_throws. Qed.

(** Dismissal always returns, with the state as it was. *)
Lemma dismiss_eq this s :
  dismiss this s =
  (Returns {| m_callback := m_callback this; m_active := false |}, s).
Proof. reflexivity. Qed.

(** What a relocation that returned has done. *)
Lemma move_returns other s this other' s' :
  scope_guard_move other s = (Returns (this, other'), s') ->
  forward_construct (m_callback other) s = (Returns (m_callback this), s')
  /\ m_active this = m_active other
  /\ other' = {| m_callback := m_callback other; m_active := false |}.
Proof.
  unfold scope_guard_move. rewrite noexcept_if_returns. unfold bind.
  destruct (forward_construct (m_callback other) s) as [[c| |] s0];
    try discriminate.
  unfold ret. intros [= <- <- <-]. auto.
Qed.

Lemma move_invoked other s :
  invoked (snd (scope_guard_move other s)) = invoked s.
Proof.
  unfold scope_guard_move. rewrite noexcept_if_state.
  unfold bind. rewrite <- (forward_construct_invoked (m_callback other) s).
  destruct (forward_construct (m_callback other) s) as [[c| |] s0];
    reflexivity.
Qed.

(** What a construction that returned has done. *)
Lemma make_returns (callback : Callback T) s g s' :
  make_scope_guard T exit_type callback s = (Returns g, s') ->
  forward_construct callback s = (Returns (m_callback g), s')
  /\ m_active g = true.
Proof.
  unfold make_scope_guard, scope_guard_ctor.
  rewrite !noexcept_if_returns. unfold bind.
  destruct (forward_construct callback s) as [[c| |] s0]; try discriminate.
  unfold ret. intros [= <- <-]. auto.
Qed.

Lemma make_invoked (callback : Callback T) s :
  invoked (snd (make_scope_guard T exit_type callback s)) = invoked s.
Proof.
  unfold make_scope_guard, scope_guard_ctor. rewrite !noexcept_if_state.
  unfold bind. rewrite <- (forward_construct_invoked callback s).
  destruct (forward_construct callback s) as [[c| |] s0]; reflexivity.
Qed.

End MemberFacts.

Lemma snoc_neq {A} (l : list A) (x : A) : l ++ [x] <> l.
Proof.
  intros H. apply (f_equal (@length A)) in H.
  rewrite length_app in H. simpl in H. lia.
Qed.

(** ** The exit-policy evaluator *)

Lemma on_success_iff {cfg} (gate : has_exit_policies cfg = true) rt :
  should_run (ON_SUCCESS gate) rt = true <-> ~ error_propagating rt.
Proof.
  unfold should_run, error_propagating, uncaught_exceptions,
    uncaught_exception.
  destruct (has_cpp20 cfg).
  - rewrite Z.eqb_eq. lia.
  - rewrite negb_true_iff, Nat.ltb_ge. lia.
Qed.

Lemma on_failure_negb {cfg} (g1 g2 : has_exit_policies cfg = true) rt :
  should_run (ON_FAILURE g1) rt = negb (should_run (ON_SUCCESS g2) rt).
Proof.
  unfold should_run. destruct (has_cpp20 cfg).
  - reflexivity.
  - rewrite negb_involutive. reflexivity.
Qed.

Lemma on_failure_iff {cfg} (gate : has_exit_policies cfg = true) rt :
  should_run (ON_FAILURE gate) rt = true <-> error_propagating rt.
Proof.
  rewrite (on_failure_negb gate gate), negb_true_iff.
  rewrite <- not_true_iff_false, on_success_iff.
  unfold error_propagating. lia.
Qed.

(** C3. The evaluator is a function of the policy and of whether an error
    is propagating, and of nothing else: [ALWAYS] gives true; [ON_SUCCESS]
    gives true exactly when no error is propagating; [ON_FAILURE] gives
    true exactly when one is, and is the negation of [ON_SUCCESS] on every
    input. This holds under both implementations, the one on
    [std::uncaught_exceptions] and the one on [std::uncaught_exception]. *)
Theorem should_run_by_policy (cfg : build_config) (rt rt' : runtime) :
  should_run (@ALWAYS cfg) rt = true
  /\ (forall gate : has_exit_policies cfg = true,
        should_run (ON_SUCCESS gate) rt = true <-> ~ error_propagating rt)
  /\ (forall gate : has_exit_policies cfg = true,
        should_run (ON_FAILURE gate) rt = true <-> error_propagating rt)
  /\ (forall g1 g2 : has_exit_policies cfg = true,
        should_run (ON_FAILURE g1) rt = negb (should_run (ON_SUCCESS g2) rt))
  /\ (forall exit_type : ExitType cfg,
        (error_propagating rt <-> error_propagating rt') ->
        should_run exit_type rt = should_run exit_type rt').
Proof.
  split; [reflexivity|].
  split; [intros; apply on_success_iff|].
  split; [intros; apply on_failure_iff|].
  split; [intros; apply on_failure_negb|].
  intros [|gate|gate] Hsame.
  - reflexivity.
  - apply eq_true_iff_eq. rewrite !on_success_iff. tauto.
  - apply eq_true_iff_eq. rewrite !on_failure_iff. tauto.
Qed.

(** With C++17 and with C++20: [ON_SUCCESS] fires in a calm runtime,
    [ON_FAILURE] during unwinding, and two unwinding runtimes that differ
    in the count of exceptions get the same answer. *)
Lemma should_run_by_policy_witness :
  should_run (@ON_SUCCESS cpp17 eq_refl) Samples.calm = true
  /\ should_run (@ON_FAILURE cpp20 eq_refl) Samples.unwinding = true
  /\ should_run (@ON_FAILURE cpp20 eq_refl) Samples.unwinding
     = should_run (@ON_FAILURE cpp20 eq_refl) {| uncaught := 2 |}.
Proof.
  split; [|split].
  - apply (proj1 (proj2 (should_run_by_policy cpp17 Samples.calm Samples.calm))).
    unfold error_propagating. simpl. lia.
  - apply (proj1 (proj2 (proj2
      (should_run_by_policy cpp20 Samples.unwinding Samples.unwinding)))).
    unfold error_propagating. simpl. lia.
  - apply (proj2 (proj2 (proj2 (proj2
      (should_run_by_policy cpp20 Samples.unwinding {| uncaught := 2 |}))))).
    unfold error_propagating. simpl. lia.
Defined.

(** ** The validity contract *)

Lemma is_proper_cases cfg T :
  is_proper_sg_callback_t cfg T =
  match call_type T with
  | Some ty_void =>
      if SG_REQUIRE_NOEXCEPT cfg then
        if has_is_nothrow_invocable cfg
        then Some (std_is_nothrow_invocable T && std_is_nothrow_destructible T)
        else None
      else Some (std_is_nothrow_destructible T)
  | _ => Some false
  end.
Proof.
  unfold is_proper_sg_callback_t, is_noarg_callable_t, returns_void_t,
    is_nothrow_invocable_if_required_t.
  destruct (call_type T) as [[|]|]; simpl; try reflexivity.
  destruct (SG_REQUIRE_NOEXCEPT cfg); simpl; try reflexivity.
  destruct (has_is_nothrow_invocable cfg); simpl; try reflexivity.
  destruct (std_is_nothrow_invocable T); reflexivity.
Qed.

Lemma strict_mode_finds_trait cfg :
  strict_mode_available cfg -> SG_REQUIRE_NOEXCEPT cfg = true ->
  has_is_nothrow_invocable cfg = true.
Proof.
  intros Hok Hreq. unfold has_is_nothrow_invocable.
  apply Z.leb_le, Hok, Hreq.
Qed.

(** In a build where strict mode finds its trait, the class exists
    exactly for the types that pass the four checks. *)
Lemma instantiable_iff cfg T :
  strict_mode_available cfg ->
  (instantiable cfg T <->
     callable_with_no_arguments T
     /\ call_returns_void T
     /\ nothrow_call_if_required cfg T
     /\ nothrow_destructible T).
Proof.
  intros Hok.
  unfold instantiable, callable_with_no_arguments, call_returns_void,
    nothrow_call_if_required, nothrow_destructible.
  rewrite is_proper_cases.
  destruct (SG_REQUIRE_NOEXCEPT cfg) eqn:Hreq.
  - rewrite (strict_mode_finds_trait cfg Hok Hreq).
    destruct (call_type T) as [[|]|]; split.
    + intros [= H]. apply andb_true_iff in H as [-> ->]. eauto.
    + intros (_ & _ & -> & ->); reflexivity.
    + discriminate.
    + intros (_ & [=] & _).
    + discriminate.
    + intros (_ & [=] & _).
  - destruct (call_type T) as [[|]|]; split.
    + intros [= ->]. repeat split; eauto. discriminate.
    + intros (_ & _ & _ & ->). reflexivity.
    + discriminate.
    + intros (_ & [=] & _).
    + discriminate.
    + intros (_ & [=] & _).
Qed.

(** C6, as amended. In a build where strict mode, if it is on, is on
    under C++17 or later: the guard type exists exactly for the types that
    pass the four checks (callable with no arguments, the call returns
    [void], the call is [noexcept] if the build requires it, nothrow
    destructible), and a guard over a type can be made exactly when the
    type passes the four checks and, besides, the member [m_callback] can
    be initialised from the forwarded callback and can be called. Without
    [SG_REQUIRE_NOEXCEPT] the third check passes whatever the type; with
    it the check is [std::is_nothrow_invocable]. The composed trait always
    has a value: a type that is not callable is refused, not an error in
    [returns_void_t]. *)
Theorem validity_contract (cfg : build_config) (T : type_facts) :
  strict_mode_available cfg ->
  (bindable cfg T <->
     (callable_with_no_arguments T
      /\ call_returns_void T
      /\ nothrow_call_if_required cfg T
      /\ nothrow_destructible T)
     /\ std_is_constructible T = true
     /\ member_call_valid T = true)
  /\ (instantiable cfg T <->
       callable_with_no_arguments T
       /\ call_returns_void T
       /\ nothrow_call_if_required cfg T
       /\ nothrow_destructible T)
  /\ (SG_REQUIRE_NOEXCEPT cfg = false ->
        is_nothrow_invocable_if_required_t cfg T = Some true)
  /\ (SG_REQUIRE_NOEXCEPT cfg = true ->
        is_nothrow_invocable_if_required_t cfg T
        = Some (std_is_nothrow_invocable T))
  /\ is_Some (is_proper_sg_callback_t cfg T).
Proof.
  intros Hok. split; [|split; [|split; [|split]]].
  - unfold bindable. rewrite (instantiable_iff cfg T Hok). tauto.
  - apply instantiable_iff, Hok.
  - unfold is_nothrow_invocable_if_required_t. intros ->. reflexivity.
  - unfold is_nothrow_invocable_if_required_t. intros Hreq.
    rewrite Hreq, (strict_mode_finds_trait cfg Hok Hreq). reflexivity.
  - rewrite is_proper_cases.
    destruct (SG_REQUIRE_NOEXCEPT cfg) eqn:Hreq.
    + rewrite (strict_mode_finds_trait cfg Hok Hreq).
      destruct (call_type T) as [[|]|]; eauto.
    + destruct (call_type T) as [[|]|]; eauto.
Qed.

(** A strict build refuses [[]{ meh(); }] on the third check alone, and a
    lax build lets it pass and binds it. *)
Lemma validity_contract_witness :
  is_nothrow_invocable_if_required_t cpp17
    (facts (by_value Samples.meh_lambda true ret)) = Some true
  /\ is_nothrow_invocable_if_required_t cpp17_strict
       (facts (by_value Samples.meh_lambda true ret)) = Some false
  /\ bindable cpp17 (facts (by_value Samples.meh_lambda true ret)).
Proof.
  split; [|split].
  - apply (proj1 (proj2 (proj2
      (validity_contract cpp17 (facts (by_value Samples.meh_lambda true ret))
         ltac:(discriminate))))).
    reflexivity.
  - apply (proj1 (proj2 (proj2 (proj2
      (validity_contract cpp17_strict
         (facts (by_value Samples.meh_lambda true ret))
         ltac:(intros _; unfold cpp17_strict; simpl; lia)))))).
    reflexivity.
  - apply (proj1 (validity_contract cpp17
             (facts (by_value Samples.meh_lambda true ret))
             ltac:(discriminate))).
    repeat split; try reflexivity.
    + eexists. reflexivity.
    + discriminate.
Defined.

(** C6, as stated, fails. [nocopy_nomove] passed by value (tests 55 and
    56) passes the four checks in every build, and no guard over it can be
    made: line 175 needs the deleted move constructor. So does a class
    whose one call operator is for rvalues: line 188 calls an lvalue. *)
Lemma four_checks_do_not_bind :
  (callable_with_no_arguments (facts_by_value Samples.nocopy_nomove None)
   /\ call_returns_void (facts_by_value Samples.nocopy_nomove None)
   /\ nothrow_call_if_required cpp17_strict
        (facts_by_value Samples.nocopy_nomove None)
   /\ nothrow_destructible (facts_by_value Samples.nocopy_nomove None))
  /\ instantiable cpp17_strict (facts_by_value Samples.nocopy_nomove None)
  /\ ~ bindable cpp17_strict (facts_by_value Samples.nocopy_nomove None)
  /\ instantiable cpp17_strict (facts_by_value Samples.rvalue_only (Some true))
  /\ ~ bindable cpp17_strict (facts_by_value Samples.rvalue_only (Some true)).
Proof.
  repeat apply conj; try reflexivity.
  - eexists. reflexivity.
  - intros _. reflexivity.
  - intros (_ & H & _). discriminate.
  - intros (_ & _ & H). discriminate.
Qed.

(** ** End of life, dismissal *)

Section GuardClaims.
Context {cfg : build_config} {World : Type}.
Context {T : proper_callback_type cfg World} {exit_type : ExitType cfg}.
Implicit Types (this : scope_guard T exit_type) (s : state T).

(** A destructor that fires runs the call operator on the world. *)
Lemma dtor_fires_call this (rt : runtime) s :
  m_active this = true -> should_run exit_type rt = true ->
  scope_guard_dtor this rt s
  = (barred (fst (call_body T (m_callback this) (world s))),
     after_call (m_callback this) s).
Proof.
  intros Ha Hr. rewrite (dtor_fires _ _ _ Ha Hr).
  unfold noexcept, invoke, lift, after_call, barred. simpl.
  destruct (call_body T (m_callback this) (world s)) as [[[]| |] w];
    reflexivity.
Qed.

(** C2. At its end of life an active guard invokes its action exactly
    when [should_run], asked then, says so: it then runs the call operator
    of its callback on the world, once, and is otherwise silent. An
    inactive guard returns without invoking anything and without touching
    the state, whatever the policy and the runtime. *)
Theorem dtor_invokes_iff_should_run this (rt : runtime) s :
  (m_active this = true ->
     (dtor_invokes this rt s <-> should_run exit_type rt = true)
     /\ (should_run exit_type rt = false -> dtor_is_silent this rt s))
  /\ (m_active this = false ->
        dtor_is_silent this rt s /\ ~ dtor_invokes this rt s).
Proof.
  assert (Hsilent : dtor_is_silent this rt s -> ~ dtor_invokes this rt s).
  { unfold dtor_is_silent, dtor_invokes. intros -> [= _ H].
    apply (f_equal invoked) in H. simpl in H.
    symmetry in H. apply snoc_neq in H. exact H. }
  split; intros Ha.
  - split.
    + destruct (should_run exit_type rt) eqn:Hr; split; intros H; auto.
      * apply dtor_fires_call; assumption.
      * exfalso. revert H. apply Hsilent, dtor_skips.
        rewrite Ha, Hr. reflexivity.
      * discriminate.
    + intros Hr. apply dtor_skips. rewrite Ha, Hr. reflexivity.
  - assert (Hs : dtor_is_silent this rt s).
    { apply dtor_skips. rewrite Ha. reflexivity. }
    split; [exact Hs|apply Hsilent, Hs].
Qed.

(** C9. The destructor never lets an exception out; when the guard fires
    and the call of the action throws, [std::terminate] is called. *)
Theorem dtor_failure_terminates this (rt : runtime) s :
  fst (scope_guard_dtor this rt s) <> Throws
  /\ (m_active this = true -> should_run exit_type rt = true ->
      fst (invoke (m_callback this) s) = Throws ->
      fst (scope_guard_dtor this rt s) = Terminated).
Proof.
  split.
  - apply dtor_never_throws.
  - intros Ha Hr Hthrow. rewrite (dtor_fires _ _ _ Ha Hr).
    unfold noexcept.
    destruct (invoke (m_callback this) s) as [[[]| |] s'];
      simpl in *; congruence.
Qed.

(** C10. [dismiss] changes [m_active] and nothing else: the guard it
    leaves has the callback and the policy it had, and the state is as it
    was. *)
Theorem dismiss_frame this s :
  exists this',
    dismiss this s = (Returns this', s)
    /\ m_callback this' = m_callback this
    /\ policy this' = policy this
    /\ m_active this' = false.
Proof.
  eexists. split; [apply dismiss_eq|]. auto.
Qed.

End GuardClaims.

(** An active [ALWAYS] guard over [flag = true] invokes it, which sets
    the flag; an inactive one does not. *)
Lemma dtor_invokes_iff_should_run_witness :
  scope_guard_dtor (Samples.flag_guard true) Samples.calm
    (Samples.fresh Samples.set_flag false)
  = (Returns tt,
     {| world := true; invoked := [m_callback (Samples.flag_guard true)] |})
  /\ dtor_is_silent (Samples.flag_guard false) Samples.calm
       (Samples.fresh Samples.set_flag false).
Proof.
  split.
  - change (dtor_invokes (Samples.flag_guard true) Samples.calm
              (Samples.fresh Samples.set_flag false)).
    apply (proj1 (dtor_invokes_iff_should_run _ _ _)); reflexivity.
  - apply (proj2 (dtor_invokes_iff_should_run _ _ _)); reflexivity.
Defined.

(** A guard over [[]{ throwing(); }] that fires ends in [std::terminate]. *)
Lemma dtor_failure_terminates_witness :
  fst (scope_guard_dtor Samples.doomed_guard Samples.calm
         (Samples.fresh Samples.throwing_lambda tt)) = Terminated.
Proof.
  apply (proj2 (dtor_failure_terminates _ _ _)); reflexivity.
Defined.

(** ** Programs over guards *)

Section MachineFacts.
Context {cfg : build_config} {World : Type}.
Context {T : proper_callback_type cfg World} {exit_type : ExitType cfg}.
Implicit Types (m : machine T exit_type) (o : op) (ops : list op).

Lemma exec_halted o m : halted m = true -> exec o m = m.
Proof. intros H. unfold exec. rewrite H. reflexivity. Qed.

Lemma run_halted ops m : halted m = true -> run ops m = m.
Proof.
  revert m. induction ops as [|o ops IH]; intros m H; simpl.
  - reflexivity.
  - rewrite (exec_halted o m H). apply IH, H.
Qed.

Lemma run_app ops ops' m : run (ops ++ ops') m = run ops' (run ops m).
Proof. apply fold_left_app. Qed.

(** A step that invokes nothing and activates nothing keeps the
    invariant. *)
Lemma sole_owner_shrink m m' :
  sole_owner m ->
  invocations m' = invocations m ->
  (halted m' = false -> halted m = false) ->
  (forall a, active_at m' a -> active_at m a) ->
  sole_owner m'.
Proof.
  intros [Hle Hown] Hinv Hh Hsub. split; [lia|].
  intros Hrun a Ha.
  destruct (Hown (Hh Hrun) a (Hsub a Ha)) as [H0 Huniq].
  split; [lia|]. intros b Hb. apply Huniq, Hsub, Hb.
Qed.

Lemma start_sole_owner (callback : Callback T) (w : World) :
  sole_owner (exit_type := exit_type) (start callback w).
Proof.
  unfold start.
  pose proof (make_invoked (exit_type := exit_type) callback
                {| world := w; invoked := [] |}) as Hinv.
  destruct (make_scope_guard T exit_type callback _) as [[g| |] s'];
    simpl in *; (split; [unfold invocations; simpl; rewrite Hinv; simpl; lia|]);
    intros _ a (g' & Hg & Ha); simpl in Hg.
  - apply lookup_singleton_Some in Hg as [<- <-].
    split; [unfold invocations; simpl; rewrite Hinv; reflexivity|].
    intros b (g'' & Hg'' & _). simpl in Hg''.
    apply lookup_singleton_Some in Hg'' as [<- _]. reflexivity.
  - rewrite lookup_empty in Hg. discriminate.
  - rewrite lookup_empty in Hg. discriminate.
Qed.

Lemma relocate_sole_owner m src dst other this s' :
  sole_owner m -> halted m = false ->
  guards m !! src = Some other ->
  m_active this = m_active other ->
  invoked s' = invoked (now m) ->
  sole_owner
    {| guards := <[dst := this]>
                   (<[src := {| m_callback := m_callback other;
                                m_active := false |}]> (guards m));
       now := s'; halted := false |}.
Proof.
  intros [Hle Hown] Hrun Hsrc Hact Hinv.
  specialize (Hown Hrun).
  assert (Hold : forall a g,
    (<[dst := this]>
       (<[src := {| m_callback := m_callback other; m_active := false |}]>
          (guards m))) !! a = Some g ->
    m_active g = true ->
    (a = dst /\ active_at m src) \/ (a <> dst /\ a <> src /\ active_at m a)).
  { intros a g Hg Ha.
    apply lookup_insert_Some in Hg as [[<- <-]|[Hne Hg]].
    - left. split; [reflexivity|]. exists other. split; [assumption|congruence].
    - apply lookup_insert_Some in Hg as [[<- <-]|[Hne' Hg]].
      + discriminate.
      + right. repeat split; try congruence. exists g. auto. }
  split; [unfold invocations in *; simpl; rewrite Hinv; exact Hle|].
  intros _ a (g & Hg & Ha). simpl in Hg.
  destruct (Hold a g Hg Ha) as [[-> Hs]|(Hd & Hs & Hm)].
  - destruct (Hown src Hs) as [H0 Huniq].
    split; [unfold invocations in *; simpl; rewrite Hinv; exact H0|].
    intros b (g' & Hg' & Hb). simpl in Hg'.
    destruct (Hold b g' Hg' Hb) as [[-> _]|(_ & Hbs & Hbm)]; [reflexivity|].
    exfalso. apply Hbs. symmetry. apply Huniq, Hbm.
  - destruct (Hown a Hm) as [H0 Huniq].
    split; [unfold invocations in *; simpl; rewrite Hinv; exact H0|].
    intros b (g' & Hg' & Hb). simpl in Hg'.
    destruct (Hold b g' Hg' Hb) as [[-> Hsa]|(_ & _ & Hbm)].
    + exfalso. apply Hs. apply Huniq, Hsa.
    + apply Huniq, Hbm.
Qed.

(** Every operation keeps the invariant. *)
Lemma exec_sole_owner o m : sole_owner m -> sole_owner (exec o m).
Proof.
  intros Hm. unfold exec. destruct (halted m) eqn:Hrun; [assumption|].
  destruct o as [src dst|a|a rt].
  - destruct (guards m !! src) as [other|] eqn:Hsrc; [|assumption].
    destruct (guards m !! dst) eqn:Hdst; [assumption|].
    pose proof (move_invoked other (now m)) as Hinv.
    destruct (scope_guard_move other (now m)) as [[[this other']| |] s']
      eqn:Hmv; simpl in *.
    + apply move_returns in Hmv as (_ & Hact & ->).
      apply relocate_sole_owner; assumption.
    + apply (sole_owner_shrink m); auto.
      unfold invocations; simpl; congruence.
    + apply (sole_owner_shrink m); auto; try discriminate.
      unfold invocations; simpl; congruence.
  - destruct (guards m !! a) as [this|] eqn:Ha; [|assumption].
    rewrite dismiss_eq. simpl.
    apply (sole_owner_shrink m); auto.
    intros b (g & Hg & Hb). simpl in Hg.
    apply lookup_insert_Some in Hg as [[<- <-]|[Hne Hg]]; [discriminate|].
    exists g. auto.
  - destruct (guards m !! a) as [this|] eqn:Ha; [|assumption].
    pose proof (dtor_invoked this rt (now m)) as Hinv.
    pose proof (dtor_never_throws this rt (now m)) as Hnt.
    assert (Hlater : forall gs h s',
      invoked s' = invoked (now m) ++ [m_callback this] ->
      m_active this = true ->
      (forall b g, gs !! b = Some g -> m_active g = true -> h = false ->
                   b <> a /\ guards m !! b = Some g) ->
      sole_owner {| guards := gs; now := s'; halted := h |}).
    { intros gs h s' Hs' Hact Hgs. destruct Hm as [Hle Hown].
      destruct (Hown Hrun a) as [H0 Huniq]; [exists this; auto|].
      unfold invocations in H0. unfold sole_owner, invocations.
      split; [simpl; rewrite Hs', length_app, H0; simpl; lia|].
      simpl. intros -> b (g & Hg & Hb). simpl in Hg.
      destruct (Hgs b g Hg Hb eq_refl) as [Hne Hg'].
      exfalso. apply Hne. symmetry. apply Huniq. exists g. auto. }
    destruct (m_active this && should_run exit_type rt) eqn:Hfire.
    + apply andb_true_iff in Hfire as [Hact _].
      destruct (scope_guard_dtor this rt (now m)) as [[[]| |] s'];
        simpl in *; try congruence.
      * apply Hlater; [assumption|assumption|]. intros b g Hg _ _.
        apply lookup_delete_Some in Hg as [Hne Hg]. auto.
      * apply Hlater; [assumption|assumption|]. discriminate.
    + rewrite (dtor_skips this rt (now m) Hfire). simpl.
      apply (sole_owner_shrink m); auto.
      intros b (g & Hg & Hb). simpl in Hg.
      apply lookup_delete_Some in Hg as [Hne Hg]. exists g. auto.
Qed.

Lemma run_sole_owner ops m : sole_owner m -> sole_owner (run ops m).
Proof.
  revert m. induction ops as [|o ops IH]; intros m Hm; simpl.
  - exact Hm.
  - apply IH, exec_sole_owner, Hm.
Qed.

End MachineFacts.

Section ProgramFacts.
Context {cfg : build_config} {World : Type}.
Context {T : proper_callback_type cfg World} {exit_type : ExitType cfg}.
Implicit Types (m : machine T exit_type) (o : op) (ops : list op).

(** Only a relocation puts a guard under a new variable. *)
Lemma exec_provenance o m a :
  is_Some (guards (exec o m) !! a) ->
  is_Some (guards m !! a) \/ exists src, o = Relocate src a.
Proof.
  unfold exec. destruct (halted m); [auto|].
  destruct o as [src dst|b|b rt].
  - destruct (guards m !! src) as [other|] eqn:Hsrc; [|auto].
    destruct (guards m !! dst) eqn:Hdst; [auto|].
    destruct (scope_guard_move other (now m)) as [[[this other']| |] s'];
      simpl; auto.
    intros [g Hg].
    apply lookup_insert_Some in Hg as [[<- _]|[_ Hg]]; [eauto|].
    apply lookup_insert_Some in Hg as [[<- _]|[_ Hg]]; eauto.
  - destruct (guards m !! b) as [this|] eqn:Hb; [|auto].
    rewrite dismiss_eq. simpl. intros [g Hg].
    apply lookup_insert_Some in Hg as [[<- _]|[_ Hg]]; eauto.
  - destruct (guards m !! b) as [this|] eqn:Hb; [|auto].
    destruct (scope_guard_dtor this rt (now m)) as [[[]| |] s']; simpl; auto.
    intros [g Hg]. apply lookup_delete_Some in Hg as [_ Hg]. eauto.
Qed.

Lemma run_provenance ops m a :
  is_Some (guards (run ops m) !! a) ->
  is_Some (guards m !! a) \/ exists src, In (Relocate src a) ops.
Proof.
  revert m. induction ops as [|o ops IH]; intros m H; simpl in *.
  - auto.
  - destruct (IH _ H) as [H'|[src Hin]].
    + destruct (exec_provenance _ _ _ H') as [?|[src ->]]; eauto.
    + eauto.
Qed.

Lemma start_guards (callback : Callback T) (w : World) (a : nat) :
  is_Some (guards (start (exit_type := exit_type) callback w) !! a) ->
  a = 0%nat.
Proof.
  unfold start.
  destruct (make_scope_guard T exit_type callback _) as [[g| |] s'];
    simpl; intros [g' Hg].
  - apply lookup_singleton_Some in Hg as [<- _]. reflexivity.
  - rewrite lookup_empty in Hg. discriminate.
  - rewrite lookup_empty in Hg. discriminate.
Qed.

(** The factory returned: the program runs, its one guard is active and
    nothing was invoked. *)
Lemma start_active (callback : Callback T) (w : World) (a : nat) :
  is_Some (guards (start (exit_type := exit_type) callback w) !! a) ->
  halted (start (exit_type := exit_type) callback w) = false
  /\ invocations (start (exit_type := exit_type) callback w) = 0%nat
  /\ active_at (start (exit_type := exit_type) callback w) 0.
Proof.
  unfold start, invocations.
  pose proof (make_invoked (exit_type := exit_type) callback
                {| world := w; invoked := [] |}) as Hinv.
  destruct (make_scope_guard T exit_type callback _) as [[g| |] s'] eqn:Hmk;
    simpl in *; intros [g' Hg].
  - apply make_returns in Hmk as [_ Hact].
    repeat split; [rewrite Hinv; reflexivity|].
    exists g. split; [apply lookup_singleton_eq|assumption].
  - rewrite lookup_empty in Hg. discriminate.
  - rewrite lookup_empty in Hg. discriminate.
Qed.

(** A relocation that put a guard under a fresh variable: what it did. *)
Lemma relocate_done m src dst :
  guards m !! dst = None ->
  is_Some (guards (exec (Relocate src dst) m) !! dst) ->
  exists other this s',
    halted m = false
    /\ guards m !! src = Some other
    /\ scope_guard_move other (now m)
       = (Returns (this, {| m_callback := m_callback other;
                            m_active := false |}), s')
    /\ exec (Relocate src dst) m
       = {| guards := <[dst := this]>
                        (<[src := {| m_callback := m_callback other;
                                     m_active := false |}]> (guards m));
            now := s'; halted := false |}.
Proof.
  intros Hfree. unfold exec.
  destruct (halted m); [rewrite Hfree; intros [? [=]]|].
  destruct (guards m !! src) as [other|] eqn:Hsrc;
    [|rewrite Hfree; intros [? [=]]].
  rewrite Hfree.
  destruct (scope_guard_move other (now m)) as [[[this other']| |] s']
    eqn:Hmv; simpl; try (rewrite Hfree; intros [? [=]]).
  intros _. pose proof (move_returns _ _ _ _ _ Hmv) as (_ & _ & ->).
  exists other, this, s'. auto.
Qed.

(** The end of life of a guard in a running program. *)
Lemma end_of_life_inactive m a g rt :
  halted m = false -> guards m !! a = Some g -> m_active g = false ->
  exec (EndOfLife a rt) m
  = {| guards := delete a (guards m); now := now m; halted := false |}.
Proof.
  intros Hrun Hg Hact. unfold exec. rewrite Hrun, Hg.
  rewrite dtor_skips; [reflexivity|]. rewrite Hact. reflexivity.
Qed.

End ProgramFacts.

(** Binding by reference runs no constructor. *)
Lemma by_reference_forward {cfg World} (F : functor_class World)
    (ok : is_proper_sg_callback_t cfg (facts (by_reference F)) = Some true)
    (c : object F) (s : state (proper cfg (by_reference F) ok)) :
  forward_construct (T := proper cfg (by_reference F) ok) c s = (Returns c, s).
Proof. destruct s. reflexivity. Qed.

Lemma by_value_forward {cfg World} (F : functor_class World)
    (ctor_noexcept : bool) (ctor : object F -> M World (object F))
    (ok : is_proper_sg_callback_t cfg
            (facts (by_value F ctor_noexcept ctor)) = Some true)
    (c c' : object F) (s : state (proper cfg (by_value F ctor_noexcept ctor) ok))
    (w' : World) :
  ctor c (world s) = (Returns c', w') ->
  forward_construct (T := proper cfg (by_value F ctor_noexcept ctor) ok) c s
  = (Returns c', {| world := w'; invoked := invoked s |}).
Proof.
  intros H. unfold forward_construct, lift. simpl.
  rewrite H. reflexivity.
Qed.

(** The constructor and the factory return what the callback's own
    constructor returned, wrapped in an active guard. *)
Lemma make_of_forward {cfg World} {T : proper_callback_type cfg World}
    (exit_type : ExitType cfg) (callback c : Callback T) (s s' : state T) :
  forward_construct callback s = (Returns c, s') ->
  make_scope_guard T exit_type callback s
  = (Returns {| m_callback := c; m_active := true |}, s').
Proof.
  intros H. unfold make_scope_guard, scope_guard_ctor.
  apply noexcept_if_returns, noexcept_if_returns.
  unfold bind. rewrite H. reflexivity.
Qed.

Lemma move_of_forward {cfg World} {T : proper_callback_type cfg World}
    {exit_type : ExitType cfg} (other : scope_guard T exit_type)
    (c : Callback T) (s s' : state T) :
  forward_construct (m_callback other) s = (Returns c, s') ->
  scope_guard_move other s
  = (Returns ({| m_callback := c; m_active := m_active other |},
              {| m_callback := m_callback other; m_active := false |}), s').
Proof.
  intros H. unfold scope_guard_move. apply noexcept_if_returns.
  unfold bind. rewrite H. reflexivity.
Qed.

(** ** Programs, step by step *)

Section StepFacts.
Context {cfg : build_config} {World : Type}.
Context {T : proper_callback_type cfg World} {exit_type : ExitType cfg}.
Implicit Types (m : machine T exit_type) (o : op) (ops : list op).
Implicit Types (g this other : scope_guard T exit_type).

(** Everything one operation can do. *)
Lemma exec_cases o m :
  exec o m = m
  \/ (exists src dst other this s',
        o = Relocate src dst /\ halted m = false
        /\ guards m !! src = Some other /\ guards m !! dst = None
        /\ m_active this = m_active other
        /\ invoked s' = invoked (now m)
        /\ exec o m
           = {| guards := <[dst := this]>
                            (<[src := {| m_callback := m_callback other;
                                         m_active := false |}]> (guards m));
                now := s'; halted := false |})
  \/ (exists src dst s' h,
        o = Relocate src dst /\ halted m = false
        /\ invoked s' = invoked (now m)
        /\ exec o m = {| guards := guards m; now := s'; halted := h |})
  \/ (exists a this,
        o = Dismiss a /\ halted m = false /\ guards m !! a = Some this
        /\ exec o m
           = {| guards := <[a := {| m_callback := m_callback this;
                                    m_active := false |}]> (guards m);
                now := now m; halted := false |})
  \/ (exists a rt this,
        o = EndOfLife a rt /\ halted m = false /\ guards m !! a = Some this
        /\ m_active this && should_run exit_type rt = false
        /\ exec o m
           = {| guards := delete a (guards m); now := now m;
                halted := false |})
  \/ (exists a rt this s' (h : bool),
        o = EndOfLife a rt /\ halted m = false /\ guards m !! a = Some this
        /\ m_active this = true /\ should_run exit_type rt = true
        /\ invoked s' = invoked (now m) ++ [m_callback this]
        /\ exec o m
           = {| guards := if h then guards m else delete a (guards m);
                now := s'; halted := h |}).
Proof.
  unfold exec. destruct (halted m) eqn:Hrun; [auto|].
  destruct o as [src dst|a|a rt].
  - destruct (guards m !! src) as [other|] eqn:Hsrc; [|auto].
    destruct (guards m !! dst) eqn:Hdst; [auto|].
    pose proof (move_invoked other (now m)) as Hinv.
    destruct (scope_guard_move other (now m)) as [[[this other']| |] s']
      eqn:Hmv; simpl in *.
    + apply move_returns in Hmv as (_ & Hact & ->).
      right; left. exists src, dst, other, this, s'. auto 10.
    + right; right; left. exists src, dst, s', false. auto.
    + right; right; left. exists src, dst, s', true. auto.
  - destruct (guards m !! a) as [this|] eqn:Ha; [|auto].
    rewrite dismiss_eq. simpl.
    right; right; right; left. exists a, this. auto.
  - destruct (guards m !! a) as [this|] eqn:Ha; [|auto].
    destruct (m_active this && should_run exit_type rt) eqn:Hfire.
    + apply andb_true_iff in Hfire as [Hact Hr].
      pose proof (dtor_invoked this rt (now m)) as Hinv.
      pose proof (dtor_never_throws this rt (now m)) as Hnt.
      rewrite Hact, Hr in Hinv. simpl in Hinv.
      destruct (scope_guard_dtor this rt (now m)) as [[[]| |] s'];
        simpl in *; try congruence.
      * do 5 right. exists a, rt, this, s', false. auto 10.
      * do 5 right. exists a, rt, this, s', true. auto 10.
    + rewrite (dtor_skips this rt (now m) Hfire). simpl.
      right; right; right; right; left. exists a, rt, this. auto.
Qed.

(** A halted program stays halted. *)
Lemma running_before o m : halted (exec o m) = false -> halted m = false.
Proof.
  intros H. destruct (halted m) eqn:Hm; [|reflexivity].
  rewrite (exec_halted o m Hm) in H. congruence.
Qed.

Lemma running_before_run ops m :
  halted (run ops m) = false -> halted m = false.
Proof.
  revert m. induction ops as [|o ops IH]; intros m H; simpl in *.
  - exact H.
  - eapply running_before, IH, H.
Qed.

(** A guard lives until its end of life; while it does, it keeps its
    callback and is not reactivated. *)
Lemma exec_guard_kept o m a g :
  guards m !! a = Some g ->
  (forall rt, o <> EndOfLife a rt) ->
  exists g', guards (exec o m) !! a = Some g'
    /\ m_callback g' = m_callback g
    /\ (m_active g' = true -> m_active g = true).
Proof.
  intros Hg Hend.
  destruct (exec_cases o m) as
    [->|[(src & dst & other & this & s' & -> & _ & Hs & Hd & _ & _ & ->)
     |[(src & dst & s' & h & -> & _ & _ & ->)
     |[(b & this & -> & _ & Hb & ->)
     |[(b & rt & this & -> & _ & Hb & _ & ->)
      |(b & rt & this & s' & h & -> & _ & Hb & _ & _ & _ & ->)]]]]]; simpl.
  - eauto.
  - assert (a <> dst) by congruence.
    rewrite lookup_insert_ne by congruence.
    destruct (decide (a = src)) as [->|Hne].
    + rewrite lookup_insert_eq. rewrite Hs in Hg. injection Hg as <-.
      eexists. split; [reflexivity|]. simpl. split; [reflexivity|discriminate].
    + rewrite lookup_insert_ne by congruence. eauto.
  - eauto.
  - destruct (decide (a = b)) as [->|Hne].
    + rewrite lookup_insert_eq. rewrite Hb in Hg. injection Hg as <-.
      eexists. split; [reflexivity|]. simpl. split; [reflexivity|discriminate].
    + rewrite lookup_insert_ne by congruence. eauto.
  - assert (a <> b) by (intros ->; apply (Hend rt); reflexivity).
    rewrite lookup_delete_ne by congruence. eauto.
  - assert (a <> b) by (intros ->; apply (Hend rt); reflexivity).
    destruct h; [eauto|]. rewrite lookup_delete_ne by congruence. eauto.
Qed.

(** A program without active guards invokes nothing and stays so. *)
Lemma exec_none_active o m :
  none_active m ->
  none_active (exec o m) /\ invoked (now (exec o m)) = invoked (now m).
Proof.
  intros Hnone.
  assert (Hin : forall a g, guards m !! a = Some g -> m_active g = false).
  { intros a g Hg. destruct (m_active g) eqn:Ha; [|reflexivity].
    exfalso. apply (Hnone a). exists g. auto. }
  destruct (exec_cases o m) as
    [->|[(src & dst & other & this & s' & -> & _ & Hs & Hd & Hact & Hinv & ->)
     |[(src & dst & s' & h & -> & _ & Hinv & ->)
     |[(b & this & -> & _ & Hb & ->)
     |[(b & rt & this & -> & _ & Hb & _ & ->)
      |(b & rt & this & s' & h & -> & _ & Hb & Hact & _ & _ & ->)]]]]];
    simpl.
  - auto.
  - split; [|exact Hinv]. intros a (g & Hg & Ha). simpl in Hg.
    apply lookup_insert_Some in Hg as [[<- <-]|[_ Hg]].
    + rewrite Hact, (Hin _ _ Hs) in Ha. discriminate.
    + apply lookup_insert_Some in Hg as [[<- <-]|[_ Hg]]; [discriminate|].
      rewrite (Hin _ _ Hg) in Ha. discriminate.
  - split; [|exact Hinv]. intros a (g & Hg & Ha). simpl in Hg.
    rewrite (Hin _ _ Hg) in Ha. discriminate.
  - split; [|reflexivity]. intros a (g & Hg & Ha). simpl in Hg.
    apply lookup_insert_Some in Hg as [[<- <-]|[_ Hg]]; [discriminate|].
    rewrite (Hin _ _ Hg) in Ha. discriminate.
  - split; [|reflexivity]. intros a (g & Hg & Ha). simpl in Hg.
    apply lookup_delete_Some in Hg as [_ Hg].
    rewrite (Hin _ _ Hg) in Ha. discriminate.
  - rewrite (Hin _ _ Hb) in Hact. discriminate.
Qed.

Lemma run_none_active ops m :
  none_active m ->
  none_active (run ops m) /\ invoked (now (run ops m)) = invoked (now m).
Proof.
  revert m. induction ops as [|o ops IH]; intros m Hnone; simpl.
  - auto.
  - destruct (exec_none_active o m Hnone) as [Hn Hi].
    destruct (IH _ Hn) as [Hn' Hi']. split; [exact Hn'|congruence].
Qed.

(** While the action stays due, it was invoked or some guard is active. *)
Lemma exec_keeps_due o m :
  keeps_due exit_type o = true ->
  halted (exec o m) = false ->
  (1 <= invocations m)%nat \/ (exists a, active_at m a) ->
  (1 <= invocations (exec o m))%nat \/ (exists a, active_at (exec o m) a).
Proof.
  intros Hdue Hrun Hm. unfold invocations in *.
  destruct (exec_cases o m) as
    [->|[(src & dst & other & this & s' & -> & _ & Hs & Hd & Hact & Hinv & He)
     |[(src & dst & s' & h & -> & _ & Hinv & He)
     |[(b & this & -> & _ & Hb & He)
     |[(b & rt & this & -> & _ & Hb & Hskip & He)
      |(b & rt & this & s' & h & -> & _ & Hb & Hact & _ & Hinv & He)]]]]];
    try rewrite He in *; simpl in *.
  - exact Hm.
  - rewrite Hinv. destruct Hm as [Hm|(a & g & Hg & Ha)]; [auto|]. right.
    destruct (decide (a = src)) as [->|Hne].
    + exists dst, this. split; [apply lookup_insert_eq|]. congruence.
    + exists a, g. split; [|exact Ha]. simpl.
      rewrite lookup_insert_ne by congruence.
      rewrite lookup_insert_ne by congruence. exact Hg.
  - rewrite Hinv. exact Hm.
  - discriminate.
  - destruct Hm as [Hm|(a & g & Hg & Ha)]; [auto|]. right.
    exists a, g. split; [|exact Ha]. simpl.
    rewrite lookup_delete_ne; [exact Hg|].
    intros <-. rewrite Hb in Hg. injection Hg as ->.
    rewrite Ha, Hdue in Hskip. discriminate.
  - left. rewrite Hinv, length_app. simpl. lia.
Qed.

Lemma run_keeps_due ops m :
  forallb (keeps_due exit_type) ops = true ->
  halted (run ops m) = false ->
  (1 <= invocations m)%nat \/ (exists a, active_at m a) ->
  (1 <= invocations (run ops m))%nat \/ (exists a, active_at (run ops m) a).
Proof.
  revert m. induction ops as [|o ops IH]; intros m Hdue Hrun Hm; simpl in *.
  - exact Hm.
  - apply andb_true_iff in Hdue as [Ho Hops].
    apply IH; auto. apply exec_keeps_due; auto.
    eapply running_before_run, Hrun.
Qed.

End StepFacts.

(** ** The state a member function leaves *)

Section StateFacts.
Context {cfg : build_config} {World : Type}.
Context {T : proper_callback_type cfg World} {exit_type : ExitType cfg}.
Implicit Types (m : machine T exit_type) (o : op) (ops : list op).
Implicit Types (g this other : scope_guard T exit_type) (s : state T).

Lemma now_settle {A} m (r : completion A * state T) update :
  now (settle m r update) = snd r.
Proof. destruct r as [[a| |] s]; reflexivity. Qed.

Lemma forward_construct_state (c : Callback T) s :
  snd (forward_construct c s)
  = {| world := snd (ctor_body T c (world s)); invoked := invoked s |}.
Proof.
  unfold forward_construct, lift.
  destruct (ctor_body T c (world s)); reflexivity.
Qed.

Lemma ctor_state (callback : Callback T) s :
  snd (scope_guard_ctor T exit_type callback s)
  = {| world := snd (ctor_body T callback (world s)); invoked := invoked s |}.
Proof.
  unfold scope_guard_ctor. rewrite noexcept_if_state.
  rewrite <- forward_construct_state. unfold bind.
  destruct (forward_construct callback s) as [[c| |] s']; reflexivity.
Qed.

Lemma move_state other s :
  snd (scope_guard_move other s)
  = {| world := snd (ctor_body T (m_callback other) (world s));
       invoked := invoked s |}.
Proof.
  unfold scope_guard_move. rewrite noexcept_if_state.
  rewrite <- forward_construct_state. unfold bind.
  destruct (forward_construct (m_callback other) s) as [[c| |] s'];
    reflexivity.
Qed.

Lemma end_of_life_fires_now m (a : nat) g (rt : runtime) :
  halted m = false -> guards m !! a = Some g ->
  m_active g = true -> should_run exit_type rt = true ->
  now (exec (EndOfLife a rt) m) = after_call (m_callback g) (now m).
Proof.
  intros Hrun Hg Hact Hr. unfold exec. rewrite Hrun, Hg, now_settle.
  rewrite (dtor_fires_call g rt (now m) Hact Hr). reflexivity.
Qed.

(** The record is exact: an operation either is the end of life of an
    active guard that is due, and then runs that guard's callback on the
    world and enters it in the record; or it leaves the record as it was,
    and the world too unless it is a relocation, which changes the world
    as the callback's constructor does. *)
Lemma exec_now o m :
  (exists a rt this,
     o = EndOfLife a rt /\ guards m !! a = Some this
     /\ m_active this = true /\ should_run exit_type rt = true
     /\ now (exec o m) = after_call (m_callback this) (now m))
  \/ (invoked (now (exec o m)) = invoked (now m)
      /\ (now (exec o m) = now m
          \/ exists src dst other,
               o = Relocate src dst /\ guards m !! src = Some other
               /\ world (now (exec o m))
                  = snd (ctor_body T (m_callback other) (world (now m))))).
Proof.
  unfold exec. destruct (halted m) eqn:Hrun; [auto|].
  destruct o as [src dst|a|a rt].
  - destruct (guards m !! src) as [other|] eqn:Hsrc; [|auto].
    destruct (guards m !! dst) eqn:Hdst; [auto|].
    rewrite now_settle, move_state. simpl. right. split; [reflexivity|].
    right. exists src, dst, other. auto.
  - destruct (guards m !! a) as [this|] eqn:Ha; [|auto].
    rewrite now_settle, dismiss_eq. auto.
  - destruct (guards m !! a) as [this|] eqn:Ha; [|auto].
    rewrite now_settle.
    destruct (m_active this && should_run exit_type rt) eqn:Hfire.
    + apply andb_true_iff in Hfire as [Hact Hr].
      rewrite (dtor_fires_call this rt (now m) Hact Hr). simpl.
      left. exists a, rt, this. auto.
    + rewrite (dtor_skips this rt (now m) Hfire). auto.
Qed.

Lemma ctor_eq (callback : Callback T) s :
  scope_guard_ctor T exit_type callback s =
  match forward_construct callback s with
  | (Returns c, s1) => (Returns (bound T exit_type c), s1)
  | (Throws, s1) =>
      (if std_is_nothrow_constructible (facts T) then Terminated else Throws,
       s1)
  | (Terminated, s1) => (Terminated, s1)
  end.
Proof.
  unfold scope_guard_ctor, noexcept_if, noexcept, bind, ret, bound.
  destruct (std_is_nothrow_constructible (facts T)); cbv beta;
    destruct (forward_construct callback s) as [[c| |] s1]; reflexivity.
Qed.

Lemma move_eq other s :
  scope_guard_move other s =
  match forward_construct (m_callback other) s with
  | (Returns c, s1) =>
      (Returns ({| m_callback := c; m_active := m_active other |},
                {| m_callback := m_callback other; m_active := false |}), s1)
  | (Throws, s1) =>
      (if std_is_nothrow_constructible (facts T) then Terminated else Throws,
       s1)
  | (Terminated, s1) => (Terminated, s1)
  end.
Proof.
  unfold scope_guard_move, noexcept_if, noexcept, bind, ret.
  destruct (std_is_nothrow_constructible (facts T)); cbv beta;
    destruct (forward_construct (m_callback other) s) as [[c| |] s1];
    reflexivity.
Qed.

(** The factory that returns by a move, case by case. *)
Lemma by_move_eq (rt : runtime) (callback : Callback T) s :
  make_scope_guard_by_move T exit_type rt callback s =
  match forward_construct callback s with
  | (Returns c1, s1) =>
      match forward_construct c1 s1 with
      | (Returns c2, s2) => (Returns (bound T exit_type c2), s2)
      | (Throws, s2) =>
          if std_is_nothrow_constructible (facts T) then (Terminated, s2)
          else if should_run exit_type {| uncaught := S (uncaught rt) |}
               then (match fst (call_body T c1 (world s2)) with
                     | Returns _ => Throws
                     | _ => Terminated
                     end, after_call c1 s2)
               else (Throws, s2)
      | (Terminated, s2) => (Terminated, s2)
      end
  | (Throws, s1) =>
      (if std_is_nothrow_constructible (facts T) then Terminated else Throws,
       s1)
  | (Terminated, s1) => (Terminated, s1)
  end.
Proof.
  unfold make_scope_guard_by_move, noexcept_if.
  assert (Hbody :
    (temporary <- scope_guard_ctor T exit_type callback ;;
     moved <- unwinding_through (scope_guard_move temporary)
                (scope_guard_dtor temporary {| uncaught := S (uncaught rt) |}) ;;
     _ <- scope_guard_dtor (snd moved) rt ;; ret (fst moved)) s
    = match forward_construct callback s with
      | (Returns c1, s1) =>
          match forward_construct c1 s1 with
          | (Returns c2, s2) => (Returns (bound T exit_type c2), s2)
          | (Throws, s2) =>
              if std_is_nothrow_constructible (facts T) then (Terminated, s2)
              else if should_run exit_type {| uncaught := S (uncaught rt) |}
                   then (match fst (call_body T c1 (world s2)) with
                         | Returns _ => Throws
                         | _ => Terminated
                         end, after_call c1 s2)
                   else (Throws, s2)
          | (Terminated, s2) => (Terminated, s2)
          end
      | (Throws, s1) =>
          (if std_is_nothrow_constructible (facts T) then Terminated
           else Throws, s1)
      | (Terminated, s1) => (Terminated, s1)
      end).
  { unfold bind at 1. rewrite ctor_eq.
    destruct (forward_construct callback s) as [[c1| |] s1];
      [|destruct (std_is_nothrow_constructible (facts T)); reflexivity
       |reflexivity].
    unfold bind at 1. unfold unwinding_through. rewrite move_eq. simpl.
    destruct (forward_construct c1 s1) as [[c2| |] s2]; [| |reflexivity].
    - unfold bind, ret, scope_guard_dtor, noexcept. reflexivity.
    - destruct (std_is_nothrow_constructible (facts T)); [reflexivity|].
      unfold scope_guard_dtor, bound. simpl.
      destruct (should_run exit_type {| uncaught := S (uncaught rt) |});
        [|reflexivity].
      unfold noexcept, invoke, lift, after_call. simpl.
      destruct (call_body T c1 (world s2)) as [[[]| |] w]; reflexivity. }
  destruct (std_is_nothrow_constructible (facts T)) eqn:Hflag.
  - unfold noexcept. rewrite Hbody.
    destruct (forward_construct callback s) as [[c1| |] s1]; try reflexivity.
    destruct (forward_construct c1 s1) as [[c2| |] s2]; reflexivity.
  - exact Hbody.
Qed.

(** It returns an active guard and has invoked nothing, or it returns no
    guard and has invoked at most once. *)
Lemma by_move_outcome (rt : runtime) (callback : Callback T) s :
  match make_scope_guard_by_move T exit_type rt callback s with
  | (Returns g, s') => m_active g = true /\ invoked s' = invoked s
  | (_, s') =>
      invoked s' = invoked s \/ exists c, invoked s' = invoked s ++ [c]
  end.
Proof.
  rewrite by_move_eq.
  pose proof (forward_construct_invoked callback s) as H1.
  destruct (forward_construct callback s) as [[c1| |] s1]; simpl in H1;
    [|destruct (std_is_nothrow_constructible (facts T)); auto|auto].
  pose proof (forward_construct_invoked c1 s1) as H2.
  destruct (forward_construct c1 s1) as [[c2| |] s2]; simpl in H2.
  - split; [reflexivity|congruence].
  - destruct (std_is_nothrow_constructible (facts T)); [left; congruence|].
    destruct (should_run exit_type _); [|left; congruence].
    assert (Hinv : invoked (after_call c1 s2) = invoked s ++ [c1])
      by (simpl; congruence).
    destruct (fst (call_body T c1 (world s2))); right; eauto.
  - left. congruence.
Qed.

Lemma start_in_sole_owner (elides : bool) (rt : runtime)
    (callback : Callback T) (w : World) :
  sole_owner (exit_type := exit_type) (start_in elides rt callback w).
Proof.
  unfold start_in, make_scope_guard_in.
  destruct (return_elided cfg elides); [apply start_sole_owner|].
  pose proof (by_move_outcome rt callback {| world := w; invoked := [] |})
    as Hout.
  destruct (make_scope_guard_by_move T exit_type rt callback _)
    as [[g| |] s'] eqn:Hmk; simpl in *.
  - destruct Hout as [Hact Hinv].
    split; [unfold invocations; simpl; rewrite Hinv; simpl; lia|].
    intros _ a (g' & Hg & Ha). simpl in Hg.
    apply lookup_singleton_Some in Hg as [<- <-].
    split; [unfold invocations; simpl; rewrite Hinv; reflexivity|].
    intros b (g'' & Hg'' & _). simpl in Hg''.
    apply lookup_singleton_Some in Hg'' as [<- _]. reflexivity.
  - split.
    + unfold invocations. simpl.
      destruct Hout as [->|[c ->]]; simpl; lia.
    + intros _ a (g' & Hg & _). simpl in Hg.
      rewrite lookup_empty in Hg. discriminate.
  - split.
    + unfold invocations. simpl.
      destruct Hout as [->|[c ->]]; simpl; lia.
    + intros _ a (g' & Hg & _). simpl in Hg.
      rewrite lookup_empty in Hg. discriminate.
Qed.

(** The factory returned, in place or by a move: the guard is active and
    nothing was invoked. *)
Lemma make_in_returns (elides : bool) (rt : runtime)
    (callback : Callback T) s g s' :
  make_scope_guard_in T exit_type elides rt callback s = (Returns g, s') ->
  m_active g = true /\ invoked s' = invoked s.
Proof.
  unfold make_scope_guard_in.
  destruct (return_elided cfg elides); intros Hmk.
  - pose proof (make_invoked (exit_type := exit_type) callback s) as Hinv.
    rewrite Hmk in Hinv. apply make_returns in Hmk as [_ Hact]. auto.
  - pose proof (by_move_outcome rt callback s) as Hout.
    rewrite Hmk in Hout. exact Hout.
Qed.

(** The program point after the factory holds a guard only under the
    first variable, and then the program runs, the guard is active and
    nothing was invoked. *)
Lemma start_in_active (elides : bool) (rt : runtime)
    (callback : Callback T) (w : World) (a : nat) :
  is_Some (guards (start_in (exit_type := exit_type) elides rt callback w)
             !! a) ->
  a = 0%nat
  /\ halted (start_in (exit_type := exit_type) elides rt callback w) = false
  /\ invoked (now (start_in (exit_type := exit_type) elides rt callback w))
     = []
  /\ active_at (start_in (exit_type := exit_type) elides rt callback w) 0.
Proof.
  unfold start_in.
  destruct (make_scope_guard_in T exit_type elides rt callback _)
    as [[g| |] s'] eqn:Hmk; simpl; intros [g' Hg].
  - apply make_in_returns in Hmk as [Hact Hinv].
    apply lookup_singleton_Some in Hg as [<- _].
    repeat split; [exact Hinv|].
    exists g. split; [apply lookup_singleton_eq|assumption].
  - rewrite lookup_empty in Hg. discriminate.
  - rewrite lookup_empty in Hg. discriminate.
Qed.

End StateFacts.

(** ** Relocation and the factory *)



(** C4. A relocation that returns gives a guard that holds the callback
    forwarded from the source's (the very same one when the callback is
    held by reference), of the same policy, with the source's former
    [m_active]; the source is left inactive, so the two are never both
    active, and an inactive source gives an inactive guard. In every
    running program that began at the factory at most one guard is
    active. *)
Theorem relocation_hands_over {cfg World}
    (T : proper_callback_type cfg World) (exit_type : ExitType cfg)
    (other : scope_guard T exit_type) (s : state T)
    (callback : Callback T) (w : World) (ops : list op) :
  (forall this other' s',
     scope_guard_move other s = (Returns (this, other'), s') ->
     forward_construct (m_callback other) s = (Returns (m_callback this), s')
     /\ policy this = policy other
     /\ m_active this = m_active other
     /\ other' = {| m_callback := m_callback other; m_active := false |}
     /\ ~ (m_active this = true /\ m_active other' = true)
     /\ (m_active other = false -> m_active this = false))
  /\ (forall (F : functor_class World)
        (ok : is_proper_sg_callback_t cfg (facts (by_reference F)) = Some true)
        (g : scope_guard (proper cfg (by_reference F) ok) exit_type) s0,
        scope_guard_move g s0
        = (Returns ({| m_callback := m_callback g; m_active := m_active g |},
                    {| m_callback := m_callback g; m_active := false |}), s0))
  /\ (let m := run ops (start (exit_type := exit_type) callback w) in
      halted m = false ->
      forall a b, active_at m a -> active_at m b -> a = b).
Proof.
  split; [|split].
  - intros this other' s' Hmv.
    destruct (move_returns _ _ _ _ _ Hmv) as (Hfw & Hact & ->).
    repeat split; auto.
    + intros [_ H]. discriminate.
    + congruence.
  - intros F ok g s0. apply move_of_forward, by_reference_forward.
  - intros m Hrun a b Ha Hb.
    destruct (run_sole_owner ops _
                (start_sole_owner (exit_type := exit_type) callback w))
      as [_ Hown].
    destruct (Hown Hrun a Ha) as [_ Huniq]. apply Huniq, Hb.
Qed.

(** [auto g1 = std::move(g0);] over [flag = true] with [g0] active: [g1]
    is active and [g0] no longer is. *)
Lemma relocation_hands_over_witness :
  forward_construct (m_callback (Samples.flag_guard true))
    (Samples.fresh Samples.set_flag false)
  = (Returns (m_callback (Samples.flag_guard true)), Samples.fresh _ false)
  /\ policy (Samples.flag_guard true) = policy (Samples.flag_guard true)
  /\ m_active (Samples.flag_guard true) = m_active (Samples.flag_guard true)
  /\ Samples.flag_guard false
     = {| m_callback := m_callback (Samples.flag_guard true);
          m_active := false |}
  /\ ~ (m_active (Samples.flag_guard true) = true
        /\ m_active (Samples.flag_guard false) = true)
  /\ (m_active (Samples.flag_guard true) = false ->
      m_active (Samples.flag_guard true) = false).
Proof.
  apply (proj1 (relocation_hands_over Samples.set_flag ALWAYS
           (Samples.flag_guard true) (Samples.fresh _ false) tt false [])
         (Samples.flag_guard true) (Samples.flag_guard false)
         (Samples.fresh _ false)).
  reflexivity.
Defined.

(** ** Dismissal *)

(** C7. [dismiss] returns the guard with [m_active] false and leaves the
    state, the record of invocations included, as it was; two calls, or
    any number of calls, do what one call does; and the end of life of a
    guard dismissed any positive number of times returns without invoking
    anything, whatever the policy and the runtime. In a program the
    dismissed guard stays alive, inactive, and its end of life adds no
    invocation. *)
Theorem dismiss_idempotent {cfg World}
    (T : proper_callback_type cfg World) (exit_type : ExitType cfg)
    (this : scope_guard T exit_type) (rt : runtime) (s : state T) (n : nat) :
  dismiss this s
    = (Returns {| m_callback := m_callback this; m_active := false |}, s)
  /\ (g <- dismiss this ;; dismiss g) s = dismiss this s
  /\ dismiss_times (S n) this s = dismiss this s
  /\ (g <- dismiss_times (S n) this ;; scope_guard_dtor g rt) s
     = (Returns tt, s)
  /\ (forall (m : machine T exit_type) (a : nat),
        halted m = false -> guards m !! a = Some this ->
        exec (Dismiss a) m
        = {| guards := <[a := {| m_callback := m_callback this;
                                 m_active := false |}]> (guards m);
             now := now m; halted := false |}
        /\ now (run [Dismiss a; EndOfLife a rt] m) = now m).
Proof.
  assert (Hn : forall k (this0 : scope_guard T exit_type),
             dismiss_times (S k) this0 s = dismiss this0 s).
  { induction k as [|k IH]; intros this0.
    - reflexivity.
    - cbn [dismiss_times]. unfold bind at 1. rewrite dismiss_eq.
      cbn [dismiss_times] in IH. rewrite IH. reflexivity. }
  repeat apply conj.
  - reflexivity.
  - reflexivity.
  - apply Hn.
  - unfold bind at 1. rewrite Hn, dismiss_eq. reflexivity.
  - intros m a Hrun Hg.
    assert (Hd : exec (Dismiss a) m
                 = {| guards := <[a := {| m_callback := m_callback this;
                                          m_active := false |}]> (guards m);
                      now := now m; halted := false |}).
    { unfold exec. rewrite Hrun, Hg, dismiss_eq. reflexivity. }
    split; [exact Hd|].
    simpl. rewrite Hd.
    rewrite (end_of_life_inactive _ a
               {| m_callback := m_callback this; m_active := false |} rt);
      auto.
    apply lookup_insert_eq.
Qed.

(** [counter += 1] bound and dismissed: the guard is still there, and
    after its end of life the counter and the record are as they were. *)
Lemma dismiss_idempotent_witness :
  exec (Dismiss 0) Samples.bump_bound
  = {| guards := <[0%nat := {| m_callback := m_callback
                                 (bound Samples.bump ALWAYS tt);
                               m_active := false |}]>
                   (guards Samples.bump_bound);
       now := now Samples.bump_bound; halted := false |}
  /\ now (run [Dismiss 0; EndOfLife 0 Samples.calm] Samples.bump_bound)
     = now Samples.bump_bound.
Proof.
  apply (proj2 (proj2 (proj2 (proj2
    (dismiss_idempotent Samples.bump ALWAYS (bound Samples.bump ALWAYS tt)
       Samples.calm (Samples.fresh _ 5) 0))))); reflexivity.
Defined.

(** ** What can fail *)

(** C8, as amended. [dismiss] always returns. The factory and a
    relocation return whenever the constructions of the callback they make
    return: one for a relocation and for the factory, and a second one for
    a factory that returns by a move. So they cannot fail for a callback
    held by reference, and they let no exception out when [Callback] is
    nothrow constructible from [Callback&&]. When it is not and such a
    construction throws, the exception goes on to the caller: at once from
    a relocation and from the first construction of the factory; from the
    move of a factory that returns by a move, after the destructor of the
    still active temporary has run, unless the action it may invoke fails.
    A relocation that does not return leaves every guard, the source
    included, as it was. *)
Theorem failure_only_from_callback_constructor {cfg World}
    (T : proper_callback_type cfg World) (exit_type : ExitType cfg)
    (callback : Callback T) (g : scope_guard T exit_type) (s : state T)
    (F : functor_class World) (rt : runtime) :
  dismiss g s
    = (Returns {| m_callback := m_callback g; m_active := false |}, s)
  /\ (returned (fst (forward_construct callback s)) ->
      returned (fst (make_scope_guard T exit_type callback s)))
  /\ (returned (fst (forward_construct (m_callback g) s)) ->
      returned (fst (scope_guard_move g s)))
  /\ (forall c1 s1,
        forward_construct callback s = (Returns c1, s1) ->
        returned (fst (forward_construct c1 s1)) ->
        returned (fst (make_scope_guard_by_move T exit_type rt callback s)))
  /\ (std_is_nothrow_constructible (facts T) = true ->
      fst (make_scope_guard T exit_type callback s) <> Throws
      /\ fst (make_scope_guard_by_move T exit_type rt callback s) <> Throws
      /\ fst (scope_guard_move g s) <> Throws)
  /\ (std_is_nothrow_constructible (facts T) = false ->
      fst (forward_construct callback s) = Throws ->
      make_scope_guard T exit_type callback s
        = (Throws, snd (forward_construct callback s))
      /\ make_scope_guard_by_move T exit_type rt callback s
         = (Throws, snd (forward_construct callback s)))
  /\ (std_is_nothrow_constructible (facts T) = false ->
      forall c1 s1,
        forward_construct callback s = (Returns c1, s1) ->
        fst (forward_construct c1 s1) = Throws ->
        fst (make_scope_guard_by_move T exit_type rt callback s)
        = if should_run exit_type {| uncaught := S (uncaught rt) |}
          then match fst (call_body T c1
                            (world (snd (forward_construct c1 s1)))) with
               | Returns _ => Throws
               | _ => Terminated
               end
          else Throws)
  /\ (std_is_nothrow_constructible (facts T) = false ->
      fst (forward_construct (m_callback g) s) = Throws ->
      scope_guard_move g s
      = (Throws, snd (forward_construct (m_callback g) s)))
  /\ (forall (ok : is_proper_sg_callback_t cfg (facts (by_reference F))
                   = Some true)
        (f : object F)
        (h : scope_guard (proper cfg (by_reference F) ok) exit_type) s0,
        returned (fst (make_scope_guard (proper cfg (by_reference F) ok)
                         exit_type f s0))
        /\ returned (fst (make_scope_guard_by_move
                            (proper cfg (by_reference F) ok)
                            exit_type rt f s0))
        /\ returned (fst (scope_guard_move h s0)))
  /\ (forall (m : machine T exit_type) src dst,
        guards m !! src = Some g ->
        ~ returned (fst (scope_guard_move g (now m))) ->
        guards (exec (Relocate src dst) m) = guards m).
Proof.
  repeat apply conj.
  - reflexivity.
  - destruct (forward_construct callback s) as [[c| |] s'] eqn:H;
      simpl; try contradiction.
    intros _. rewrite (make_of_forward exit_type _ _ _ _ H). exact I.
  - destruct (forward_construct (m_callback g) s) as [[c| |] s'] eqn:H;
      simpl; try contradiction.
    intros _. rewrite (move_of_forward _ _ _ _ H). exact I.
  - intros c1 s1 H1 H2. rewrite by_move_eq, H1.
    destruct (forward_construct c1 s1) as [[c2| |] s2];
      simpl in *; try contradiction. exact I.
  - intros H. split; [|split]; apply noexcept_if_true_never_throws, H.
  - intros Hflag Hthrow.
    assert (Hmk : make_scope_guard T exit_type callback s
                  = scope_guard_ctor T exit_type callback s).
    { unfold make_scope_guard. rewrite Hflag. reflexivity. }
    rewrite Hmk, ctor_eq, by_move_eq, Hflag.
    destruct (forward_construct callback s) as [[c| |] s'];
      simpl in *; try discriminate. auto.
  - intros Hflag c1 s1 H1 H2. rewrite by_move_eq, H1, Hflag.
    destruct (forward_construct c1 s1) as [[c2| |] s2];
      simpl in *; try discriminate.
    destruct (should_run exit_type _); reflexivity.
  - intros Hflag Hthrow. rewrite move_eq, Hflag.
    destruct (forward_construct (m_callback g) s) as [[c| |] s'];
      simpl in *; try discriminate. reflexivity.
  - intros ok f h s0. split; [|split].
    + rewrite (make_of_forward exit_type _ _ _ _
                 (by_reference_forward F ok f s0)). exact I.
    + rewrite by_move_eq, !by_reference_forward. exact I.
    + rewrite (move_of_forward _ _ _ _
                 (by_reference_forward F ok (m_callback h) s0)). exact I.
  - intros m src dst Hsrc Hfail. unfold exec.
    destruct (halted m); [reflexivity|]. rewrite Hsrc.
    destruct (guards m !! dst); [reflexivity|].
    destruct (scope_guard_move g (now m)) as [[[this other']| |] s'];
      simpl in *; try reflexivity.
    exfalso. apply Hfail. exact I.
Qed.

(** [nothrow{}] is nothrow move constructible: nothing is thrown. The
    class of [Samples.move_throws] is not: with its budget spent, the
    exception of its move constructor leaves the relocation. *)
Lemma failure_only_from_callback_constructor_witness :
  (fst (make_scope_guard Samples.nothrow_rvalue ALWAYS tt
          (Samples.fresh _ tt)) <> Throws
   /\ fst (make_scope_guard_by_move Samples.nothrow_rvalue ALWAYS
             Samples.calm tt (Samples.fresh _ tt)) <> Throws
   /\ fst (scope_guard_move (bound Samples.nothrow_rvalue ALWAYS tt)
             (Samples.fresh _ tt)) <> Throws)
  /\ scope_guard_move (bound Samples.move_throws ALWAYS tt)
       (Samples.fresh _ true)
     = (Throws, snd (forward_construct
                       (m_callback (bound Samples.move_throws ALWAYS tt))
                       (Samples.fresh _ true))).
Proof.
  split.
  - apply (proj1 (proj2 (proj2 (proj2 (proj2
      (failure_only_from_callback_constructor Samples.nothrow_rvalue ALWAYS
         tt (bound Samples.nothrow_rvalue ALWAYS tt) (Samples.fresh _ tt)
         Samples.nothrow Samples.calm)))))).
    reflexivity.
  - apply (proj1 (proj2 (proj2 (proj2 (proj2 (proj2 (proj2 (proj2
      (failure_only_from_callback_constructor Samples.move_throws ALWAYS
         tt (bound Samples.move_throws ALWAYS tt) (Samples.fresh _ true)
         (Samples.lambda (W := bool) Samples.non_throwing true)
         Samples.calm))))))))); reflexivity.
Defined.

(** C8, as stated, fails. The class of [Samples.move_throws] passes the
    validity contract, yet its move constructor throws once the budget is
    spent: the factory then throws; and a guard the factory returned while
    the budget lasted cannot be relocated. *)
Lemma construction_and_relocation_can_throw :
  bindable cpp17_strict (facts Samples.move_throws)
  /\ fst (make_scope_guard Samples.move_throws ALWAYS tt
            (Samples.fresh _ true)) = Throws
  /\ (exists g0,
        guards Samples.budget_bound !! 0%nat = Some g0
        /\ fst (scope_guard_move g0 (now Samples.budget_bound)) = Throws)
  /\ ~ (forall cfg World (T : proper_callback_type cfg World)
          (exit_type : ExitType cfg) (callback : Callback T)
          (g : scope_guard T exit_type) (s : state T),
          returned (fst (make_scope_guard T exit_type callback s))
          /\ returned (fst (scope_guard_move g s))).
Proof.
  repeat apply conj.
  - reflexivity.
  - reflexivity.
  - reflexivity.
  - reflexivity.
  - exists (bound Samples.move_throws ALWAYS tt). split; reflexivity.
  - intros H.
    destruct (H cpp17_strict bool Samples.move_throws ALWAYS tt
                (bound Samples.move_throws ALWAYS tt)
                (Samples.fresh _ true)) as [Hmake _].
    exact Hmake.
Qed.

(** ** The header's own tests and the specification's scenarios *)

(** Tests 4 to 6: an lvalue whose destructor may throw is accepted, and
    the factory is [noexcept]. Tests 45 and 46: as an rvalue it is
    refused. *)
Example test_throwing_dtor_throw_spec :
  bindable cpp17_strict (facts (by_reference Samples.potentially_throwing_dtor))
  /\ std_is_nothrow_constructible
       (facts (by_reference Samples.potentially_throwing_dtor)) = true
  /\ forall cfg ctor_noexcept ctor,
       ~ bindable cfg (facts (by_value Samples.potentially_throwing_dtor
                                ctor_noexcept ctor)).
Proof.
  repeat split. intros cfg ne ctor [H _]. revert H. unfold instantiable.
  rewrite is_proper_cases. simpl.
  destruct (SG_REQUIRE_NOEXCEPT cfg), (has_is_nothrow_invocable cfg);
    discriminate.
Qed.

(** Tests 27 to 29: a class that can be neither copied nor moved is
    bound by reference, as it is. *)
Example test_noncopyable_nonmovable_good :
  make_scope_guard Samples.nocopy_nomove_lvalue ALWAYS tt (Samples.fresh _ tt)
  = (Returns (bound Samples.nocopy_nomove_lvalue ALWAYS tt),
     Samples.fresh _ tt).
Proof. reflexivity. Qed.

(** A type that cannot be called is refused, and the refusal is a value
    of the trait, not an error. *)
Example not_callable_is_refused :
  is_proper_sg_callback_t cpp17_strict
    (facts (by_reference Samples.not_callable)) = Some false.
Proof. reflexivity. Qed.

(** Tests 12 and 13: the factory is not [noexcept] for an rvalue whose
    move constructor may throw, and is for an lvalue. *)
Example test_throwing_move_throw_spec :
  std_is_nothrow_constructible
    (facts (by_value Samples.throwing_move false ret)) = false
  /\ std_is_nothrow_constructible
       (facts (by_reference Samples.throwing_move)) = true.
Proof. split; reflexivity. Qed.

(** Tests 38 to 42 fail exactly when [noexcept] is required; tests 50 to
    54 always fail. *)
Example test_noexcept_fixable_and_return :
  bindable cpp17 (facts (by_reference Samples.meh_lambda))
  /\ ~ bindable cpp17_strict (facts (by_reference Samples.meh_lambda))
  /\ forall cfg, ~ bindable cfg (facts (by_reference Samples.returning_struct)).
Proof.
  split; [repeat split; reflexivity|]. split; [intros [H _]; discriminate|].
  intros cfg [H _]. revert H. unfold instantiable.
  rewrite is_proper_cases. discriminate.
Qed.

(** [flag = true] under [ALWAYS]: after the block the flag is set. *)
Example scenario_flag_set :
  world (now (run [EndOfLife 0 Samples.calm] Samples.flag_bound)) = true.
Proof. reflexivity. Qed.

(** [counter += 1] under [ALWAYS], dismissed at once: the counter keeps
    its value. *)
Example scenario_dismissed_counter :
  world (now (run [Dismiss 0; EndOfLife 0 Samples.calm]
                Samples.bump_bound)) = 5.
Proof. reflexivity. Qed.

(** A block left by an exception: [ON_FAILURE] sets the flag and
    [ON_SUCCESS] leaves it. *)
Example scenario_rollback :
  world (now (run [EndOfLife 0 Samples.unwinding]
                (start (T := Samples.set_flag)
                   (exit_type := @ON_FAILURE cpp20 eq_refl) tt false))) = true
  /\ world (now (run [EndOfLife 0 Samples.unwinding]
                   (start (T := Samples.set_flag)
                      (exit_type := @ON_SUCCESS cpp20 eq_refl) tt false))) = false.
Proof. split; reflexivity. Qed.

(* ===================================================================== *)
(** * Further properties of the header *)

(** ** The traits, one by one *)

Lemma and_t_head_false (B : trait) (C : list trait) :
  and_t (Some false) B C = Some false.
Proof. destruct C; reflexivity. Qed.

Lemma and_t_true_iff (A B : trait) (C : list trait) :
  and_t A B C = Some true <->
  A = Some true /\ B = Some true /\ Forall (fun X => X = Some true) C.
Proof.
  revert A B. induction C as [|C1 Cs IH]; intros A B; simpl.
  - destruct A as [[|]|]; simpl; split.
    + intros ->. auto.
    + intros (_ & -> & _). reflexivity.
    + discriminate.
    + intros ([=] & _).
    + discriminate.
    + intros ([=] & _).
  - rewrite Forall_cons. destruct A as [[|]|]; simpl.
    + rewrite IH. tauto.
    + split; [discriminate|intros ([=] & _)].
    + split; [discriminate|intros ([=] & _)].
Qed.

Lemma and_t_head_not_true (A B : trait) (C : list trait) :
  A <> Some true -> and_t A B C = A.
Proof.
  intros H. destruct C, A as [[|]|]; simpl; congruence.
Qed.

Lemma and_t_first_not_true (C : list trait) :
  forall (A B X : trait) (pre rest : list trait),
    A :: B :: C = pre ++ X :: rest ->
    Forall (fun Y => Y = Some true) pre ->
    X <> Some true ->
    and_t A B C = X.
Proof.
  induction C as [|C1 Cs IH]; intros A B X pre rest Heq Hpre HX.
  - destruct pre as [|p pre]; simpl in Heq.
    + injection Heq as -> _. apply and_t_head_not_true, HX.
    + injection Heq as -> Heq. inversion Hpre as [|? ? -> Hpre']; subst.
      simpl. destruct pre as [|q pre]; simpl in Heq.
      * injection Heq as -> _. reflexivity.
      * injection Heq as _ Heq. destruct pre; discriminate.
  - destruct pre as [|p pre]; simpl in Heq.
    + injection Heq as -> _. apply and_t_head_not_true, HX.
    + injection Heq as -> Heq. inversion Hpre as [|? ? -> Hpre']; subst.
      simpl. apply (IH B C1 X pre rest Heq Hpre' HX).
Qed.

(** X1. [and_t] is the conjunction of its arguments, read from the left:
    it is true exactly when every argument is true; on traits that all
    have a value it is the boolean conjunction of the values; and the
    first argument that is not true decides: the result is that argument,
    false for a false one, whatever follows it, even arguments whose
    instantiation would be an error. *)
Theorem and_t_is_conjunction (A B : trait) (C : list trait)
    (a b : bool) (cs : list bool) (X : trait) (pre rest : list trait) :
  (and_t A B C = Some true <->
     A = Some true /\ B = Some true /\ Forall (fun X => X = Some true) C)
  /\ and_t (Some a) (Some b) (map Some cs)
     = Some (a && b && forallb (fun c => c) cs)
  /\ (A :: B :: C = pre ++ X :: rest ->
      Forall (fun Y => Y = Some true) pre ->
      X <> Some true ->
      and_t A B C = X)
  /\ and_t (Some false) B C = Some false
  /\ and_t (Some true) (Some false) C = Some false.
Proof.
  split; [apply and_t_true_iff|]. split; [|split; [|split]].
  - revert a b. induction cs as [|c cs IH]; intros a b; simpl.
    + destruct a, b; reflexivity.
    + rewrite IH. destruct a; simpl; [|reflexivity].
      rewrite andb_assoc. reflexivity.
  - apply and_t_first_not_true.
  - apply and_t_head_false.
  - destruct C; [reflexivity|]. simpl. apply and_t_head_false.
Qed.

(** True, true, false, and then a trait that is an error: false. *)
Lemma and_t_is_conjunction_witness :
  and_t (Some true) (Some true) [Some false; None] = Some false.
Proof.
  apply (proj1 (proj2 (proj2
    (and_t_is_conjunction (Some true) (Some true) [Some false; None]
       true true [] (Some false) [Some true; Some true] [None])))).
  - reflexivity.
  - repeat constructor.
  - discriminate.
Defined.

(** X2. [is_noarg_callable_t] is true only for a call that is valid and
    returns [void]: for a callable that returns a value it is false,
    although the call expression is valid. So it is true exactly when
    [returns_void_t] is, and [returns_void_t] is an error exactly for the
    types [is_noarg_callable_t] has already refused. *)
Theorem noarg_callable_means_void_call (T : type_facts) :
  (is_noarg_callable_t T = Some true <-> returns_void_t T = Some true)
  /\ (call_type T = Some ty_non_void -> is_noarg_callable_t T = Some false)
  /\ (returns_void_t T = None <-> call_type T = None)
  /\ (returns_void_t T = None -> is_noarg_callable_t T = Some false).
Proof.
  unfold is_noarg_callable_t, returns_void_t.
  destruct (call_type T) as [[|]|]; repeat split; congruence.
Qed.

(** [returning_struct] can be called, and [is_noarg_callable_t] says it
    cannot. *)
Lemma noarg_callable_means_void_call_witness :
  is_noarg_callable_t (facts (by_reference Samples.returning_struct))
  = Some false.
Proof.
  apply (proj1 (proj2 (noarg_callable_means_void_call _))). reflexivity.
Defined.

(** X3. Before C++17 the macro [SG_REQUIRE_NOEXCEPT_IN_CPP17] is not
    looked at: with [__cplusplus] below 201703 a build accepts the same
    types whether it is defined or not. From C++17 on, defining it makes
    the build strict. *)
Theorem noexcept_in_cpp17_needs_cpp17 (cfg : build_config) (b : bool)
    (T : type_facts) :
  (cplusplus cfg < 201703 ->
     SG_REQUIRE_NOEXCEPT (with_noexcept_in_cpp17 b cfg)
     = predef_SG_REQUIRE_NOEXCEPT cfg
     /\ is_proper_sg_callback_t (with_noexcept_in_cpp17 b cfg) T
        = is_proper_sg_callback_t (with_noexcept_in_cpp17 (negb b) cfg) T)
  /\ (201703 <= cplusplus cfg ->
        SG_REQUIRE_NOEXCEPT (with_noexcept_in_cpp17 true cfg) = true).
Proof.
  unfold SG_REQUIRE_NOEXCEPT, with_noexcept_in_cpp17. simpl. split.
  - intros Hlt.
    assert (Hc : (201703 <=? cplusplus cfg) = false) by (apply Z.leb_gt; lia).
    rewrite !is_proper_cases. unfold SG_REQUIRE_NOEXCEPT. simpl.
    rewrite Hc. simpl. rewrite orb_false_r. auto.
  - intros Hge.
    assert (Hc : (201703 <=? cplusplus cfg) = true) by (apply Z.leb_le; lia).
    rewrite Hc. apply orb_true_r.
Qed.

(** In a C++11 build [[]{ meh(); }] is accepted with the macro defined. *)
Lemma noexcept_in_cpp17_needs_cpp17_witness :
  SG_REQUIRE_NOEXCEPT (with_noexcept_in_cpp17 true cpp11) = false
  /\ is_proper_sg_callback_t (with_noexcept_in_cpp17 true cpp11)
       (facts (by_reference Samples.meh_lambda))
     = is_proper_sg_callback_t (with_noexcept_in_cpp17 false cpp11)
         (facts (by_reference Samples.meh_lambda)).
Proof.
  apply (proj1 (noexcept_in_cpp17_needs_cpp17 cpp11 true _)).
  reflexivity.
Defined.

(** X4. Requiring [noexcept] only refuses more: what a strict build
    accepts is accepted by every build in which strict mode, if it is on,
    is on under C++17 or later. Such builds agree on every type whose call
    is [noexcept]. A build that defines [SG_REQUIRE_NOEXCEPT] below C++17
    accepts no type. *)
Theorem strict_build_accepts_less (cfg cfg' : build_config) (T : type_facts) :
  (strict_mode_available cfg' ->
   SG_REQUIRE_NOEXCEPT cfg = true ->
   (instantiable cfg T -> instantiable cfg' T)
   /\ (bindable cfg T -> bindable cfg' T))
  /\ (strict_mode_available cfg -> strict_mode_available cfg' ->
      std_is_nothrow_invocable T = true ->
      is_proper_sg_callback_t cfg T = is_proper_sg_callback_t cfg' T)
  /\ (SG_REQUIRE_NOEXCEPT cfg = true -> cplusplus cfg < 201703 ->
      ~ instantiable cfg T).
Proof.
  assert (Hup : strict_mode_available cfg' ->
                SG_REQUIRE_NOEXCEPT cfg = true ->
                instantiable cfg T -> instantiable cfg' T).
  { unfold instantiable. rewrite !is_proper_cases. intros Hok' ->.
    destruct (call_type T) as [[|]|]; try discriminate.
    destruct (has_is_nothrow_invocable cfg); try discriminate.
    intros [= H]. apply andb_true_iff in H as [-> ->].
    destruct (SG_REQUIRE_NOEXCEPT cfg') eqn:Hreq'; [|reflexivity].
    rewrite (strict_mode_finds_trait cfg' Hok' Hreq'). reflexivity. }
  split; [|split].
  - intros Hok' Hreq. split; [auto|].
    unfold bindable. intros (Hi & Hc & Hm). auto.
  - intros Hok Hok' Hni. rewrite !is_proper_cases, Hni.
    destruct (SG_REQUIRE_NOEXCEPT cfg) eqn:Hreq;
      destruct (SG_REQUIRE_NOEXCEPT cfg') eqn:Hreq';
      rewrite ?(strict_mode_finds_trait cfg Hok Hreq),
              ?(strict_mode_finds_trait cfg' Hok' Hreq');
      reflexivity.
  - intros Hreq Hlt. unfold instantiable. rewrite is_proper_cases, Hreq.
    assert (Hno : has_is_nothrow_invocable cfg = false)
      by (apply Z.leb_gt; lia).
    rewrite Hno. destruct (call_type T) as [[|]|]; discriminate.
Qed.

(** [nothrow] is accepted by the strict C++17 build, hence by C++11; a
    C++14 build with [SG_REQUIRE_NOEXCEPT] defined does not accept it. *)
Lemma strict_build_accepts_less_witness :
  bindable cpp11 (facts Samples.nothrow_rvalue)
  /\ ~ instantiable cpp14_predefined (facts Samples.nothrow_rvalue).
Proof.
  split.
  - apply (proj1 (strict_build_accepts_less cpp17_strict cpp11 _)).
    + discriminate.
    + reflexivity.
    + repeat split; reflexivity.
  - apply (proj2 (proj2 (strict_build_accepts_less cpp14_predefined cpp11 _)));
      reflexivity.
Defined.

Section ProgramClaims.
Context {cfg : build_config} {World : Type}.
Context (T : proper_callback_type cfg World) (exit_type : ExitType cfg).
Implicit Types (m : machine T exit_type) (o : op) (ops : list op).
Implicit Types (g this other : scope_guard T exit_type) (s : state T).

Lemma start_invoked (callback : Callback T) (w : World) :
  invoked (now (start (exit_type := exit_type) callback w)) = [].
Proof.
  unfold start.
  pose proof (make_invoked (exit_type := exit_type) callback
                {| world := w; invoked := [] |}) as Hinv.
  destruct (make_scope_guard T exit_type callback _) as [[g| |] s'];
    exact Hinv.
Qed.

(** An operation adds no invocation unless it is the end of life of an
    active guard that is due. *)
Lemma exec_invoked o m :
  invoked (now (exec o m)) = invoked (now m)
  \/ exists a rt this,
       o = EndOfLife a rt /\ guards m !! a = Some this
       /\ m_active this = true /\ should_run exit_type rt = true
       /\ invoked (now (exec o m)) = invoked (now m) ++ [m_callback this].
Proof.
  destruct (exec_cases o m) as
    [->|[(src & dst & other & this & s' & -> & _ & _ & _ & _ & Hinv & ->)
     |[(src & dst & s' & h & -> & _ & Hinv & ->)
     |[(b & this & -> & _ & Hb & ->)
     |[(b & rt & this & -> & _ & Hb & _ & ->)
      |(b & rt & this & s' & h & -> & _ & Hb & Hact & Hr & Hinv & ->)]]]]];
    simpl; auto.
  right. exists b, rt, this. auto.
Qed.

(** The record only grows. *)
Lemma run_invoked_grows ops m :
  exists calls, invoked (now (run ops m)) = invoked (now m) ++ calls.
Proof.
  revert m. induction ops as [|o ops IH]; intros m; simpl.
  - exists []. rewrite app_nil_r. reflexivity.
  - destruct (IH (exec o m)) as [calls ->].
    destruct (exec_now o m) as [(a & rt & this & _ & _ & _ & _ & ->)|[-> _]].
    + exists (m_callback this :: calls). simpl. rewrite <- app_assoc.
      reflexivity.
    + exists calls. reflexivity.
Qed.

(** A program that entered a call in the record has a first step that
    made one. *)
Lemma run_first_call ops m :
  invoked (now (run ops m)) <> invoked (now m) ->
  exists before a rt this after,
    ops = before ++ EndOfLife a rt :: after
    /\ invoked (now (run before m)) = invoked (now m)
    /\ guards (run before m) !! a = Some this
    /\ m_active this = true /\ should_run exit_type rt = true
    /\ now (exec (EndOfLife a rt) (run before m))
       = after_call (m_callback this) (now (run before m)).
Proof.
  revert m. induction ops as [|o ops IH]; intros m Hne; simpl in *.
  - congruence.
  - destruct (exec_now o m)
      as [(a & rt & this & -> & Hg & Ha & Hr & Hnow)|[Hinv _]].
    + exists [], a, rt, this, ops. auto 10.
    + destruct (IH (exec o m))
        as (before & a & rt & this & after & -> & Hb & Hg & Ha & Hr & Hnow).
      { rewrite Hinv. exact Hne. }
      exists (o :: before), a, rt, this, after. simpl.
      repeat split; auto. congruence.
Qed.

(** X5. Of the constructors and [dismiss] none invokes the action. The
    private constructor and the move constructor leave the record as it
    was and change the world exactly as the callback's own constructor
    does, whether they return or not; [dismiss] leaves the whole state. *)
Theorem only_a_destructor_invokes (callback : Callback T) g s :
  snd (scope_guard_ctor T exit_type callback s)
    = {| world := snd (ctor_body T callback (world s));
         invoked := invoked s |}
  /\ snd (scope_guard_move g s)
     = {| world := snd (ctor_body T (m_callback g) (world s));
          invoked := invoked s |}
  /\ snd (dismiss g s) = s.
Proof.
  split; [apply ctor_state|]. split; [apply move_state|reflexivity].
Qed.

(** X6. A guard stays where it is until its own end of life: whatever
    else the program does, it is still there, with the callback it had,
    and it is active only if it was active before. *)
Theorem guard_kept_until_its_end ops m (a : nat) g :
  guards m !! a = Some g ->
  (forall rt, ~ In (EndOfLife a rt) ops) ->
  exists g', guards (run ops m) !! a = Some g'
    /\ m_callback g' = m_callback g
    /\ (m_active g' = true -> m_active g = true).
Proof.
  revert m g. induction ops as [|o ops IH]; intros m g Hg Hend; simpl.
  - eauto.
  - destruct (exec_guard_kept o m a g Hg) as (g1 & Hg1 & Hc1 & Ha1).
    { intros rt ->. apply (Hend rt). left. reflexivity. }
    destruct (IH (exec o m) g1 Hg1) as (g' & Hg' & Hc' & Ha').
    { intros rt Hin. apply (Hend rt). right. exact Hin. }
    exists g'. split; [exact Hg'|]. split; [congruence|auto].
Qed.


(** X8. Inactive guards never invoke. From a point where no guard is
    active, whatever the program does next (relocations included) adds no
    invocation and activates no guard. So once the factory's guard was
    dismissed, the action is never invoked, whatever follows. *)
Theorem inactive_guards_never_invoke (callback : Callback T) (w : World)
    ops m :
  (none_active m ->
     none_active (run ops m) /\ invoked (now (run ops m)) = invoked (now m))
  /\ invoked (now (run (Dismiss 0 :: ops)
                     (start (exit_type := exit_type) callback w))) = [].
Proof.
  split; [apply run_none_active|].
  set (m0 := start (exit_type := exit_type) callback w). simpl.
  assert (Hnone : none_active (exec (Dismiss 0) m0)).
  { intros a (g & Hg & Ha).
    destruct (exec_provenance (Dismiss 0) m0 a) as [Hs|[src [=]]]; [eauto|].
    pose proof (start_guards callback w a Hs) as ->.
    destruct (start_active callback w 0 Hs) as (Hrun & _ & _).
    destruct Hs as [g0 Hg0]. fold m0 in Hrun, Hg0.
    unfold exec in Hg. rewrite Hrun, Hg0, dismiss_eq in Hg. simpl in Hg.
    rewrite lookup_insert_eq in Hg. injection Hg as <-. discriminate. }
  destruct (run_none_active ops _ Hnone) as [_ ->].
  destruct (exec_invoked (Dismiss 0) m0) as [->|(a & rt & this & [=] & _)].
  apply start_invoked.
Qed.

(** X9. An action the policy skipped is lost. When the factory's guard
    reaches its end of life in a runtime in which the policy says not to
    run, the action is not invoked then and is never invoked later. *)
Theorem skipped_action_is_lost (callback : Callback T) (w : World)
    (rt : runtime) ops :
  should_run exit_type rt = false ->
  invoked (now (run (EndOfLife 0 rt :: ops)
                  (start (exit_type := exit_type) callback w))) = [].
Proof.
  intros Hskip.
  set (m0 := start (exit_type := exit_type) callback w). simpl.
  assert (Hnone : none_active (exec (EndOfLife 0 rt) m0)).
  { intros a (g & Hg & Ha).
    destruct (exec_provenance (EndOfLife 0 rt) m0 a) as [Hs|[src [=]]];
      [eauto|].
    pose proof (start_guards callback w a Hs) as ->.
    destruct (start_active callback w 0 Hs) as (Hrun & _ & _).
    destruct Hs as [g0 Hg0]. fold m0 in Hrun, Hg0.
    unfold exec in Hg. rewrite Hrun, Hg0 in Hg.
    rewrite dtor_skips in Hg by (rewrite Hskip; apply andb_false_r).
    simpl in Hg. rewrite lookup_delete_eq in Hg. discriminate. }
  destruct (run_none_active ops _ Hnone) as [_ ->].
  destruct (exec_invoked (EndOfLife 0 rt) m0)
    as [->|(a & rt' & this & [= <- <-] & _ & _ & Hr & _)].
  - apply start_invoked.
  - congruence.
Qed.

End ProgramClaims.

(** [g0] is relocated into [g1] and [g1] ends: [g0] is still there. *)
Lemma guard_kept_until_its_end_witness :
  exists g', guards (run [Relocate 0 1; EndOfLife 1 Samples.calm]
                       Samples.flag_bound) !! 0%nat = Some g'
    /\ m_callback g' = m_callback (Samples.flag_guard true)
    /\ (m_active g' = true -> m_active (Samples.flag_guard true) = true).
Proof.
  apply (guard_kept_until_its_end Samples.set_flag ALWAYS
           [Relocate 0 1; EndOfLife 1 Samples.calm] Samples.flag_bound 0
           (Samples.flag_guard true)).
  - reflexivity.
  - intros rt [H|[H|[]]]; discriminate.
Defined.


(** [counter += 1] bound and dismissed, then relocated and ended. *)
Lemma inactive_guards_never_invoke_witness :
  none_active (run [Relocate 0 1; EndOfLife 1 Samples.calm]
                 Samples.bump_dismissed)
  /\ invoked (now (run [Relocate 0 1; EndOfLife 1 Samples.calm]
                     Samples.bump_dismissed))
     = invoked (now Samples.bump_dismissed).
Proof.
  apply (proj1 (inactive_guards_never_invoke Samples.bump ALWAYS tt 5
                  [Relocate 0 1; EndOfLife 1 Samples.calm]
                  Samples.bump_dismissed)).
  intros a (g & Hg & Ha). unfold Samples.bump_dismissed in Hg. simpl in Hg.
  apply lookup_singleton_Some in Hg as [_ <-]. discriminate.
Defined.

(** An [ON_SUCCESS] guard over [flag = true] ended during unwinding. *)
Lemma skipped_action_is_lost_witness :
  invoked (now (run [EndOfLife 0 Samples.unwinding]
                  (start (T := Samples.set_flag)
                     (exit_type := @ON_SUCCESS cpp20 eq_refl) tt false))) = [].
Proof.
  apply (skipped_action_is_lost Samples.set_flag (@ON_SUCCESS cpp20 eq_refl)
           tt false Samples.unwinding []).
  reflexivity.
Defined.

(** X10. A construction that fails, and the action. Where the return
    of the factory is in place (from C++17, or elided): when the factory
    does not return there is no guard, and whatever the program does next
    the action is never invoked. Where a build below C++17 returns by a
    move: a failing first construction changes the state as that
    construction does and invokes nothing; but when the move of the
    temporary throws, the destructor of the temporary, still active, runs
    with one more exception in flight, and if the policy then says to run
    the action is invoked, once, inside the failing factory. *)
Theorem failed_construction_and_the_action {cfg World}
    (T : proper_callback_type cfg World) (exit_type : ExitType cfg)
    (callback : Callback T) (w : World) (ops : list op) (rt : runtime)
    (s : state T) :
  (~ returned (fst (make_scope_guard T exit_type callback
                      {| world := w; invoked := [] |})) ->
   guards (start (exit_type := exit_type) callback w) = ∅
   /\ invoked (now (run ops (start (exit_type := exit_type) callback w)))
      = [])
  /\ (~ returned (fst (forward_construct callback s)) ->
      snd (make_scope_guard_by_move T exit_type rt callback s)
      = snd (forward_construct callback s)
      /\ invoked (snd (make_scope_guard_by_move T exit_type rt callback s))
         = invoked s)
  /\ (std_is_nothrow_constructible (facts T) = false ->
      forall c1 s1 s2,
        forward_construct callback s = (Returns c1, s1) ->
        forward_construct c1 s1 = (Throws, s2) ->
        make_scope_guard_by_move T exit_type rt callback s
        = if should_run exit_type {| uncaught := S (uncaught rt) |}
          then (match fst (call_body T c1 (world s2)) with
                | Returns _ => Throws
                | _ => Terminated
                end, after_call c1 s2)
          else (Throws, s2)).
Proof.
  split; [|split].
  - intros Hfail.
    assert (Hempty : guards (start (exit_type := exit_type) callback w) = ∅).
    { unfold start.
      destruct (make_scope_guard T exit_type callback _) as [[g| |] s'];
        simpl in *; [|reflexivity|reflexivity].
      exfalso. apply Hfail. exact I. }
    split; [exact Hempty|].
    destruct (run_none_active ops
                (start (exit_type := exit_type) callback w)) as [_ ->].
    + intros a (g & Hg & _).
      rewrite Hempty, lookup_empty in Hg. discriminate.
    + apply start_invoked.
  - intros Hfail. rewrite by_move_eq.
    pose proof (forward_construct_invoked callback s) as Hinv.
    destruct (forward_construct callback s) as [[c1| |] s1]; simpl in *.
    + exfalso. apply Hfail. exact I.
    + auto.
    + auto.
  - intros Hflag c1 s1 s2 H1 H2. rewrite by_move_eq, H1, H2, Hflag.
    reflexivity.
Qed.

(** The class of [Samples.one_move_then_throws] in a C++11 build that
    returns by a move: the first construction spends the budget, the move
    throws, and the flag is set inside the factory, which throws. *)
Lemma failed_construction_and_the_action_witness :
  make_scope_guard_by_move Samples.one_move_then_throws ALWAYS Samples.calm
    tt (Samples.fresh _ (false, false))
  = (Throws,
     Build_state _ _ Samples.one_move_then_throws (true, true) [tt]).
Proof.
  apply (proj2 (proj2 (failed_construction_and_the_action
           Samples.one_move_then_throws ALWAYS tt (false, false) []
           Samples.calm (Samples.fresh _ (false, false))))
         eq_refl tt (Samples.fresh _ (true, false))
         (Samples.fresh _ (true, false)));
    reflexivity.
Defined.

(** ** What is accepted, by value and by reference *)

(** X12. The groups of [compile_time_tests.cpp], in any build in which
    strict mode, if it is on, is on under C++17 or later, for any class
    passed as a non-const lvalue: one whose call returns [void] and is
    declared [noexcept] is accepted; one whose call returns [void] and is
    not declared [noexcept] is accepted exactly when the build does not
    require [noexcept]; one whose call returns a value, or that cannot be
    called, is refused. And in every build an rvalue is refused when its
    destructor may throw or when no constructor takes it. *)
Theorem test_groups {World} (cfg : build_config) (F : functor_class World)
    (ne : bool) (ctor_noexcept : option bool) :
  (strict_mode_available cfg ->
   (call_signature F false lvalue = Some (ty_void, true) ->
      bindable cfg (facts (by_reference F)))
   /\ (call_signature F false lvalue = Some (ty_void, false) ->
         (bindable cfg (facts (by_reference F)) <->
            SG_REQUIRE_NOEXCEPT cfg = false))
   /\ (call_signature F false lvalue = Some (ty_non_void, ne) ->
         ~ bindable cfg (facts (by_reference F)))
   /\ (call_signature F false lvalue = None ->
         ~ bindable cfg (facts (by_reference F))))
  /\ (destructor_noexcept F = false ->
        ~ bindable cfg (facts_by_value F ctor_noexcept))
  /\ ~ bindable cfg (facts_by_value F None).
Proof.
  split; [|split].
  - intros Hok. unfold bindable, instantiable. rewrite is_proper_cases.
    simpl. split; [|split; [|split]]; intros Hsig; rewrite Hsig; simpl.
    + split; [|split; reflexivity].
      destruct (SG_REQUIRE_NOEXCEPT cfg) eqn:Hreq; [|reflexivity].
      rewrite (strict_mode_finds_trait cfg Hok Hreq). reflexivity.
    + split.
      * intros (Hi & _ & _).
        destruct (SG_REQUIRE_NOEXCEPT cfg) eqn:Hreq; [|reflexivity].
        rewrite (strict_mode_finds_trait cfg Hok Hreq) in Hi. discriminate.
      * intros ->. repeat split; reflexivity.
    + intros (Hi & _). discriminate.
    + intros (Hi & _). discriminate.
  - intros Hd (Hi & _). revert Hi. unfold instantiable.
    rewrite is_proper_cases. simpl. rewrite Hd.
    destruct (fst <$> call_signature F false rvalue) as [[|]|];
      try discriminate.
    destruct (SG_REQUIRE_NOEXCEPT cfg), (has_is_nothrow_invocable cfg);
      rewrite ?andb_false_r; discriminate.
  - intros (_ & Hc & _). discriminate.
Qed.

(** [meh_lambda] in a strict build, [returning_struct], and
    [potentially_throwing_dtor] as an rvalue. *)
Lemma test_groups_witness :
  (bindable cpp17_strict (facts (by_reference Samples.meh_lambda)) <->
     SG_REQUIRE_NOEXCEPT cpp17_strict = false)
  /\ ~ bindable cpp17 (facts (by_reference Samples.returning_struct))
  /\ ~ bindable cpp17
         (facts_by_value Samples.potentially_throwing_dtor (Some true)).
Proof.
  split; [|split].
  - apply (proj1 (proj2 (proj1 (test_groups cpp17_strict Samples.meh_lambda
                                  true None)
                           ltac:(intros _; unfold cpp17_strict; simpl; lia)))).
    reflexivity.
  - apply (proj1 (proj2 (proj2 (proj1 (test_groups cpp17
                                         Samples.returning_struct true None)
                                  ltac:(discriminate))))).
    reflexivity.
  - apply (proj1 (proj2 (test_groups cpp17 Samples.potentially_throwing_dtor
                           true (Some true)))).
    reflexivity.
Defined.

(** ** What the factory binds *)

(** X13. The factory as it is defined gives an active guard over the
    forwarded callback. A callable passed by reference, const or not, is
    bound as it is: no constructor runs and the state is untouched,
    whether the return is in place or by a move. One passed by value is
    bound as its constructor built it: built once when the return is in
    place, and twice, the temporary and then the result, when a build
    below C++17 returns by a move. *)
Theorem factory_forwards_the_callback {cfg World}
    (T : proper_callback_type cfg World) (exit_type : ExitType cfg)
    (callback : Callback T) (s : state T) (F : functor_class World)
    (rt : runtime) :
  (forall c s',
     forward_construct callback s = (Returns c, s') ->
     make_scope_guard T exit_type callback s
     = (Returns (bound T exit_type c), s'))
  /\ (forall c1 s1 c2 s2,
        forward_construct callback s = (Returns c1, s1) ->
        forward_construct c1 s1 = (Returns c2, s2) ->
        make_scope_guard_by_move T exit_type rt callback s
        = (Returns (bound T exit_type c2), s2))
  /\ (forall (ok : is_proper_sg_callback_t cfg (facts (by_reference F))
                   = Some true) (f : object F) s0,
        make_scope_guard (proper cfg (by_reference F) ok) exit_type f s0
        = (Returns (bound (proper cfg (by_reference F) ok) exit_type f), s0)
        /\ make_scope_guard_by_move (proper cfg (by_reference F) ok)
             exit_type rt f s0
           = (Returns (bound (proper cfg (by_reference F) ok) exit_type f),
              s0))
  /\ (forall (ok : is_proper_sg_callback_t cfg (facts (by_const_reference F))
                   = Some true) (f : object F) s0,
        make_scope_guard (proper cfg (by_const_reference F) ok) exit_type f s0
        = (Returns (bound (proper cfg (by_const_reference F) ok) exit_type f),
           s0))
  /\ (forall ctor_noexcept ctor
        (ok : is_proper_sg_callback_t cfg
                (facts (by_value F ctor_noexcept ctor)) = Some true)
        (f f1 f2 : object F) s0 w1 w2,
        ctor f (world s0) = (Returns f1, w1) ->
        make_scope_guard (proper cfg (by_value F ctor_noexcept ctor) ok)
          exit_type f s0
        = (Returns (bound (proper cfg (by_value F ctor_noexcept ctor) ok)
                      exit_type f1),
           {| world := w1; invoked := invoked s0 |})
        /\ (ctor f1 w1 = (Returns f2, w2) ->
            make_scope_guard_by_move
              (proper cfg (by_value F ctor_noexcept ctor) ok)
              exit_type rt f s0
            = (Returns (bound (proper cfg (by_value F ctor_noexcept ctor) ok)
                          exit_type f2),
               {| world := w2; invoked := invoked s0 |}))).
Proof.
  repeat apply conj.
  - intros c s' H. apply make_of_forward, H.
  - intros c1 s1 c2 s2 H1 H2. rewrite by_move_eq, H1, H2. reflexivity.
  - intros ok f s0. split.
    + apply make_of_forward, by_reference_forward.
    + rewrite by_move_eq, !by_reference_forward. reflexivity.
  - intros ok f s0. apply make_of_forward. destruct s0. reflexivity.
  - intros ne ctor ok f f1 f2 s0 w1 w2 H1. split.
    + apply make_of_forward, by_value_forward, H1.
    + intros H2. rewrite by_move_eq.
      rewrite (by_value_forward F ne ctor ok f f1 s0 w1 H1).
      rewrite (by_value_forward F ne ctor ok f1 f2
                 {| world := w1; invoked := invoked s0 |} w2 H2).
      reflexivity.
Qed.

(** [make_scope_guard<F, ALWAYS>([&]{ flag = true; })], in place and by a
    move. *)
Lemma factory_forwards_the_callback_witness :
  make_scope_guard Samples.set_flag ALWAYS tt (Samples.fresh _ false)
  = (Returns (Samples.flag_guard true), Samples.fresh _ false)
  /\ make_scope_guard_by_move Samples.set_flag ALWAYS Samples.calm tt
       (Samples.fresh _ false)
     = (Returns (Samples.flag_guard true), Samples.fresh _ false).
Proof.
  split.
  - apply (proj1 (factory_forwards_the_callback Samples.set_flag ALWAYS tt
                    (Samples.fresh _ false) (Samples.lambda (ret tt) false)
                    Samples.calm)).
    reflexivity.
  - apply (proj1 (proj2 (factory_forwards_the_callback Samples.set_flag
                           ALWAYS tt (Samples.fresh _ false)
                           (Samples.lambda (ret tt) false) Samples.calm))
             tt (Samples.fresh _ false)); reflexivity.
Defined.
